(** * MRtrix3: sliding-window MP-PCA denoising and thread backend

    A shallow embedding of [cmd/dwidenoise.cpp] (the per-voxel functor of
    the denoiser and its option handling) and of the thread-count and
    [__Backend] code of the threading core, with the properties of the
    design description that bear on them.

    Definitions:
    - [F32]: IEEE binary32 and binary64 arithmetic (round to nearest,
      ties to even), as the [float] and [double] expressions of the
      functor use it;
    - [Window]: the image cursor, the local matrix and
      [DenoisingFunctor::load_data];
    - [Denoise]: the cumulative spectrum, the component-selection loop and
      the truncation of [DenoisingFunctor::operator()];
    - [Options]: the [size] option and the set-up of the functor in [run];
    - [Thread]: [number_of_threads] and the [__Backend] guard;
    - [WindowLayout], [ThreadCalls]: the window within the volume, and
      calls through the diagnostic function pointers;
    - [Viewer]: [next_image] and [previous_image] of the viewer's window;
    - [Register]: the registration type, the option checks and the
      detection of a spherical harmonic series in [cmd/mrregister.cpp].

    Properties: [WindowFacts], [DenoiseFacts], [OptionsFacts] and
    [ThreadFacts], then [WindowLayoutFacts], [SpectrumFacts],
    [ThreadCallsFacts], [ViewerFacts] and [RegisterFacts].

    The singular value decomposition itself ([Eigen::JacobiSVD]) and the
    matrix products around it belong to Eigen and are not embedded; the
    spectral stage is a function of the singular values it returns. *)

From Stdlib Require Import ZArith List Bool Lia Arith.
From Stdlib Require String Ascii.
From Stdlib Require Import Floats.SpecFloat.
Import ListNotations.

Local Open Scope Z_scope.

(* ===================================================================== *)
(** ** Floating-point arithmetic *)
(* ===================================================================== *)

Module F32.

(** [float] is IEEE binary32: 24 bits of mantissa, infinities at
    exponent 128.  [double] is binary64. *)
Definition prec : Z := 24.
Definition emax : Z := 128.
Definition dprec : Z := 53.
Definition demax : Z := 1024.

Definition float := spec_float.
Definition double := spec_float.

Definition zero : float := S754_zero false.
Definition NaN : float := S754_nan.

Definition add (x y : float) : float := SFadd prec emax x y.
Definition sub (x y : float) : float := SFsub prec emax x y.
Definition mul (x y : float) : float := SFmul prec emax x y.
Definition div (x y : float) : float := SFdiv prec emax x y.
Definition sqrt (x : float) : float := SFsqrt prec emax x.
Definition ltb (x y : float) : bool := SFltb x y.
Definition leb (x y : float) : bool := SFleb x y.

(** Conversion of an integer ([size_t], [int]) to [float]. *)
Definition of_Z (z : Z) : float := binary_normalize prec emax z 0 false.
Definition of_nat (k : nat) : float := of_Z (Z.of_nat k).

(** Promotion [float -> double] (exact) and narrowing [double -> float]
    (round to nearest even). *)
Definition renorm (p e : Z) (x : spec_float) : spec_float :=
  match x with
  | S754_finite s m ex => binary_normalize p e (cond_Zopp s (Zpos m)) ex s
  | _ => x
  end.
Definition to_double (x : float) : double := renorm dprec demax x.
Definition of_double (x : double) : float := renorm prec emax x.

Definition ddiv (x y : double) : double := SFdiv dprec demax x y.
Definition dltb (x y : double) : bool := SFltb x y.
Definition one64 : double := binary_normalize dprec demax 1 0 false.

End F32.

Definition float : Type := F32.float.

(* ===================================================================== *)
(** ** The image cursor and the local window *)
(* ===================================================================== *)

Module Window.

(** A column of the local matrix: one sample per volume (axis 3). *)
Definition column := list float.

(** [Eigen::MatrixXf] with [m] rows and [n] columns, kept as the list of
    its [n] columns. *)
Definition matrix := list column.

Definition position := (Z * Z * Z)%type.

(** The data of an [Image<float>] that the functor touches: the sizes of
    the four axes and the samples, [row3 x y z] being [row(3)] with the
    cursor at the spatial position [(x, y, z)]. *)
Record Volume := mkVolume {
  size0 : Z;
  size1 : Z;
  size2 : Z;
  size3 : nat;
  row3 : Z -> Z -> Z -> column
}.

(** An image handle: the volume and the spatial cursor [index(0..2)]. *)
Record Image := mkImage {
  vol : Volume;
  index0 : Z;
  index1 : Z;
  index2 : Z
}.

Inductive axis := ax0 | ax1 | ax2.

Definition index (a : axis) (dwi : Image) : Z :=
  match a with
  | ax0 => index0 dwi
  | ax1 => index1 dwi
  | ax2 => index2 dwi
  end.

Definition set_index (a : axis) (v : Z) (dwi : Image) : Image :=
  match a with
  | ax0 => mkImage (vol dwi) v (index1 dwi) (index2 dwi)
  | ax1 => mkImage (vol dwi) (index0 dwi) v (index2 dwi)
  | ax2 => mkImage (vol dwi) (index0 dwi) (index1 dwi) v
  end.

Definition in_axis (i size : Z) : bool := (0 <=? i) && (i <? size).

(** Whether a spatial position is inside the volume. *)
Definition in_volume (v : Volume) (p : position) : bool :=
  let '(x, y, z) := p in
  in_axis x (size0 v) && in_axis y (size1 v) && in_axis z (size2 v).

Definition cursor (dwi : Image) : position :=
  (index0 dwi, index1 dwi, index2 dwi).

(** Modelled from the spec: [is_out_of_bounds] is declared in the image
    helpers, which are not part of the sources at hand; the cursor is out
    of bounds when it does not lie within the volume's spatial bounds. *)
Definition is_out_of_bounds (dwi : Image) : bool :=
  negb (in_volume (vol dwi) (cursor dwi)).

(** [X.setZero()]: every coefficient becomes 0, the shape is kept. *)
Definition setZero (X : matrix) : matrix :=
  map (map (fun _ => F32.zero)) X.

Fixpoint replace_nth (k : nat) (c : column) (X : matrix) : matrix :=
  match X, k with
  | [], _ => []
  | _ :: X', O => c :: X'
  | c0 :: X', S k' => c0 :: replace_nth k' c X'
  end.

(** [X.col(k) = c].  Eigen's [col] requires [0 <= k < cols()]; outside of
    that range the access is an error ([None]). *)
Definition set_col (X : matrix) (k : Z) (c : column) : option matrix :=
  if (0 <=? k) && (k <? Z.of_nat (length X))
  then Some (replace_nth (Z.to_nat k) c X)
  else None.

(** The state threaded through the three loops of [load_data]: the image
    (with its cursor), the matrix, the running column index [k], and the
    trace of the positions whose samples were read (most recent first). *)
Record LoadState := mkLoad {
  ls_dwi : Image;
  ls_X : matrix;
  ls_k : Z;
  ls_reads : list position
}.

Definition with_index (a : axis) (v : Z) (st : LoadState) : LoadState :=
  mkLoad (set_index a v (ls_dwi st)) (ls_X st) (ls_k st) (ls_reads st).

(** [++dwi.index(a)] *)
Definition incr (a : axis) (st : LoadState) : LoadState :=
  with_index a (index a (ls_dwi st) + 1) st.

(** [++dwi.index(0), ++k] *)
Definition incr0k (st : LoadState) : LoadState :=
  let st' := incr ax0 st in
  mkLoad (ls_dwi st') (ls_X st') (ls_k st' + 1) (ls_reads st').

(** Body of the innermost loop:
    [if (! is_out_of_bounds(dwi)) X.col(k) = dwi.row(3)]. *)
Definition visit (st : LoadState) : option LoadState :=
  let dwi := ls_dwi st in
  if negb (is_out_of_bounds dwi) then
    match set_col (ls_X st) (ls_k st)
                  (row3 (vol dwi) (index0 dwi) (index1 dwi) (index2 dwi)) with
    | Some X' => Some (mkLoad dwi X' (ls_k st) (cursor dwi :: ls_reads st))
    | None => None
    end
  else Some st.

(** [for (...; dwi.index(a) <= hi; next) body], the initialisation being
    done by the caller.  [cnt] bounds the number of iterations; the
    callers pass the exact trip count, so that the loop is always left
    through its condition ([loop2_scan] below gives the cursor on exit). *)
Fixpoint for_le (cnt : nat) (a : axis) (hi : Z)
         (body : LoadState -> option LoadState)
         (next : LoadState -> LoadState)
         (st : LoadState) : option LoadState :=
  match cnt with
  | O => Some st
  | S c =>
      if index a (ls_dwi st) <=? hi then
        match body st with
        | Some st1 => for_le c a hi body next (next st1)
        | None => None
        end
      else Some st
  end.

(** The private members of [DenoisingFunctor] that [load_data] uses. *)
Record Functor := mkFunctor {
  extent : Z;
  m : nat;
  n : nat;
  r : nat;
  X : matrix
}.

(** Number of values of an index running from [c - e] to [c + e]. *)
Definition trip (e : Z) : nat := Z.to_nat (2 * e + 1).

Definition loop0 (e p0 : Z) (st : LoadState) : option LoadState :=
  for_le (trip e) ax0 (p0 + e) visit incr0k (with_index ax0 (p0 - e) st).

Definition loop1 (e p0 p1 : Z) (st : LoadState) : option LoadState :=
  for_le (trip e) ax1 (p1 + e) (loop0 e p0) (incr ax1)
         (with_index ax1 (p1 - e) st).

Definition loop2 (e p0 p1 p2 : Z) (st : LoadState) : option LoadState :=
  for_le (trip e) ax2 (p2 + e) (loop1 e p0 p1) (incr ax2)
         (with_index ax2 (p2 - e) st).

(** [DenoisingFunctor::load_data]. *)
Definition load_data (f : Functor) (dwi : Image) : option LoadState :=
  let p0 := index0 dwi in
  let p1 := index1 dwi in
  let p2 := index2 dwi in
  let st0 := mkLoad dwi (setZero (X f)) 0 [] in
  match loop2 (extent f) p0 p1 p2 st0 with
  | Some st =>
      (* reset image position *)
      Some (with_index ax2 p2 (with_index ax1 p1 (with_index ax0 p0 st)))
  | None => None
  end.

(** [DenoisingFunctor::DenoisingFunctor (dwi, size)].  [size] is an [int]
    and [size/2] truncates; the sizes the option lets through lie between
    0 and 50, so that [size*size*size] neither overflows nor is negative.
    [X(m,n)] is left uninitialised by Eigen; [load_data] zeroes it before
    any use.  [Xm] and [sigma] play no part in [load_data] and are left
    out; [pos] is only written and read within one call of [load_data],
    where it is held in local names. *)
Definition DenoisingFunctor (dwi : Image) (size : Z) : Functor :=
  let m := size3 (vol dwi) in
  let n := Z.to_nat (size * size * size) in
  mkFunctor (Z.quot size 2) m n (if (m <? n)%nat then m else n)
            (repeat (repeat F32.zero m) n).

(** *** Specification-side description of the window *)

(** The values [lo, lo+1, ..., lo+cnt-1]. *)
Fixpoint zrange (lo : Z) (cnt : nat) : list Z :=
  match cnt with
  | O => []
  | S c => lo :: zrange (lo + 1) c
  end.

(** The positions of the window of half-width [e] centred on
    [(p0, p1, p2)], in the order of the scan: axis 2 outermost, axis 0
    innermost. *)
Definition window_positions (e p0 p1 p2 : Z) : list position :=
  flat_map (fun z =>
    flat_map (fun y =>
      map (fun x => (x, y, z)) (zrange (p0 - e) (trip e)))
      (zrange (p1 - e) (trip e)))
    (zrange (p2 - e) (trip e)).

(** The column that belongs to a window position: its samples when the
    position is inside the volume, [rows] zeros otherwise. *)
Definition window_col (v : Volume) (rows : nat) (p : position) : column :=
  let '(x, y, z) := p in
  if in_volume v p then row3 v x y z else repeat F32.zero rows.

(** What one step of the scan does to the matrix, the column index and the
    trace, as a function of the position alone. *)
Definition acc := (matrix * Z * list position)%type.

Definition abs (st : LoadState) : acc := (ls_X st, ls_k st, ls_reads st).

Definition visit_at (v : Volume) (a : acc) (p : position) : option acc :=
  let '(X, k, R) := a in
  let '(x, y, z) := p in
  if in_volume v p then
    match set_col X k (row3 v x y z) with
    | Some X' => Some (X', k + 1, p :: R)
    | None => None
    end
  else Some (X, k + 1, R).

Fixpoint scan (v : Volume) (ps : list position) (a : acc) : option acc :=
  match ps with
  | [] => Some a
  | p :: ps' =>
      match visit_at v a p with
      | Some a' => scan v ps' a'
      | None => None
      end
  end.

(** The columns a scan of [ps] leaves in place of the columns [B]. *)
Fixpoint fill (v : Volume) (ps : list position) (B : matrix) : matrix :=
  match ps, B with
  | p :: ps', b :: B' =>
      (let '(x, y, z) := p in if in_volume v p then row3 v x y z else b)
        :: fill v ps' B'
  | _, _ => []
  end.

(** How the result of a loop relates to the scan of the positions it
    covers: both fail, or both succeed with the same matrix, column index
    and trace, the volume being untouched and the cursor as [fr] says. *)
Definition agrees (o : option LoadState) (v : Volume) (a : option acc)
           (fr : Image -> Prop) : Prop :=
  match o, a with
  | Some st, Some a' => vol (ls_dwi st) = v /\ abs st = a' /\ fr (ls_dwi st)
  | None, None => True
  | _, _ => False
  end.

(** A functor is well formed when its matrix has one column of [m] rows
    per window position. *)
Definition wf_functor (f : Functor) : Prop :=
  0 <= extent f /\
  length (X f) = n f /\
  n f = (trip (extent f) * trip (extent f) * trip (extent f))%nat /\
  Forall (fun c => length c = m f) (X f).

(** The centre lies in the volume and touches one of its faces. *)
Definition on_border (dwi : Image) : Prop :=
  in_volume (vol dwi) (cursor dwi) = true /\
  (index0 dwi = 0 \/ index0 dwi = size0 (vol dwi) - 1 \/
   index1 dwi = 0 \/ index1 dwi = size1 (vol dwi) - 1 \/
   index2 dwi = 0 \/ index2 dwi = size2 (vol dwi) - 1).

(** A volume of a single voxel and a single channel holding the sample 7,
    with the cursor on that voxel: every neighbour is outside. *)
Definition one_voxel : Image :=
  mkImage (mkVolume 1 1 1 1 (fun _ _ _ => [F32.of_Z 7])) 0 0 0.

End Window.

(* ===================================================================== *)
(** ** The spectral stage of [DenoisingFunctor::operator()] *)
(* ===================================================================== *)

Module Denoise.

Local Open Scope nat_scope.

(** [Eigen::VectorXf].  The vectors of the spectral stage ([s], [lam],
    [clam]) all have [r] coefficients and are only indexed below [r]. *)
Definition vector := list float.

(** [v[i]] *)
Definition get (v : vector) (i : nat) : float := nth i v F32.zero.

(** [v[i] = x] *)
Fixpoint set (i : nat) (x : float) (v : vector) : vector :=
  match v, i with
  | [], _ => []
  | _ :: v', O => x :: v'
  | y :: v', S i' => y :: set i' x v'
  end.

(** Subtraction of two [size_t], with its wrap-around. *)
Definition size_t_sub (a b : nat) : nat :=
  Z.to_nat ((Z.of_nat a - Z.of_nat b) mod 2 ^ 64)%Z.

(** [lam = s.array().square() / n], the division being done in [float]. *)
Definition eigenvalues (n : nat) (s : vector) : vector :=
  map (fun x => F32.div (F32.mul x x) (F32.of_nat n)) s.

(** [for (size_t i = r; i != 0; --i) { cs += lam[i-1]; clam[i-1] = cs; }] *)
Fixpoint clam_loop (i : nat) (lam : vector) (cs : float) (clam : vector)
  : vector :=
  match i with
  | O => clam
  | S i' =>
      let cs' := F32.add cs (get lam i') in
      clam_loop i' lam cs' (set i' cs' clam)
  end.

(** [clam (r)] is allocated uninitialised and then entirely written by the
    loop, which starts from [cs = 0.0]. *)
Definition cumulative (r : nat) (lam : vector) : vector :=
  clam_loop r lam F32.zero (repeat F32.zero r).

Section Selection.

Variables m n r : nat.
Variables lam clam : vector.

(** [gam = float(m-p) / float(n)] *)
Definition gam (p : nat) : float :=
  F32.div (F32.of_nat (size_t_sub m p)) (F32.of_nat n).

(** [sigsq1 = clam[p] / (r-p) / ((gam<1.0) ? 1.0 : gam)]: the first
    division is in [float], the comparison and the second division are in
    [double], and the result is narrowed to [float]. *)
Definition sigsq1 (p : nat) : float :=
  let g := F32.to_double (gam p) in
  F32.of_double
    (F32.ddiv
       (F32.to_double (F32.div (get clam p) (F32.of_nat (size_t_sub r p))))
       (if F32.dltb g F32.one64 then F32.one64 else g)).

(** [sigsq2 = (lam[p] - lam[r-1]) / 4 / std::sqrt(gam)] *)
Definition sigsq2 (p : nat) : float :=
  F32.div
    (F32.div (F32.sub (get lam p) (get lam (size_t_sub r 1))) (F32.of_Z 4))
    (F32.sqrt (gam p)).

(** The test of the loop: [sigsq2 < sigsq1]. *)
Definition noise_at (p : nat) : bool := F32.ltb (sigsq2 p) (sigsq1 p).

(** [for (p = 0; p < r; ++p) { ...; if (sigsq2 < sigsq1) break; }], from
    the state [(p, sigsq1)]; returns the state in which the loop is left.
    [cnt] bounds the iterations that remain; the loop is entered with
    [cnt = r - p]. *)
Fixpoint select_loop (cnt : nat) (p : nat) (s1 : float) : nat * float :=
  match cnt with
  | O => (p, s1)
  | S c =>
      if p <? r then
        let s1' := sigsq1 p in
        if F32.ltb (sigsq2 p) s1' then (p, s1')
        else select_loop c (S p) s1'
      else (p, s1)
  end.

End Selection.

(** [s.tail(k).setZero()] *)
Definition tail_setZero (s : vector) (k : nat) : vector :=
  firstn (length s - k) s ++ repeat F32.zero k.

(** What the spectral stage leaves behind: the selected [p], the singular
    values after truncation, and [sigma]. *)
Record Spectrum := mkSpectrum {
  sp_p : nat;
  sp_s : vector;
  sp_sigma : float
}.

(** Lines 78 to 97 of [operator()], from the singular values [s] of the
    centred matrix.  [sigsq1_0] is the value the uninitialised local
    [sigsq1] happens to hold; it is only read when the loop body ran. *)
Definition spectral_stage (m n r : nat) (s : vector) (sigsq1_0 : float)
  : Spectrum :=
  let lam := eigenvalues n s in
  let clam := cumulative r lam in
  let '(p, s1) := select_loop m n r lam clam r 0 sigsq1_0 in
  mkSpectrum p
             (tail_setZero s (size_t_sub r p))
             (if p =? r then F32.NaN else F32.sqrt s1).

(** First index among [from, ..., from+cnt-1] at which [test] holds,
    [from+cnt] if there is none. *)
Fixpoint first_index (test : nat -> bool) (from cnt : nat) : nat :=
  match cnt with
  | O => from
  | S c => if test from then from else first_index test (S from) c
  end.

(** The boundary as the specification words it: the first index at which
    [sigsq2 <= sigsq1]. *)
Definition boundary_le (m n r : nat) (lam clam : vector) : nat :=
  first_index (fun p => F32.leb (sigsq2 m n r lam p) (sigsq1 m n r clam p)) 0 r.

End Denoise.

(* ===================================================================== *)
(** ** The [size] option *)
(* ===================================================================== *)

Module Options.

(** [#define DEFAULT_SIZE 5] *)
Definition DEFAULT_SIZE : Z := 5.

(** [Argument ("window").type_integer (0, 50)] *)
Record IntegerArgument := type_integer {
  arg_min : Z;
  arg_max : Z
}.

Definition size_argument : IntegerArgument := type_integer 0 50.

(** Modelled from the spec: the command-line parser is not part of the
    sources at hand.  A supplied value outside of the range declared for
    the argument is a configuration error ([None]) raised before [run] is
    entered; a supplied value within the range is handed to [run]. *)
Definition parse_argument (a : IntegerArgument) (supplied : Z) : option Z :=
  if (arg_min a <=? supplied) && (supplied <=? arg_max a)
  then Some supplied
  else None.

(** Modelled from the spec: [get_option_value (name, default)] is the
    value supplied for the option, the default when it is not supplied. *)
Definition get_option_value (parsed : option Z) (default : Z) : Z :=
  match parsed with
  | Some v => v
  | None => default
  end.

(** What [run] has done to the two images by the time it looks at the
    option. *)
Inductive event :=
| opened_input
| created_output.

(** [run], up to the construction of the functor (lines 143 to 151).  The
    input is opened (line 143) and the output image is created (lines 145
    to 147); only then is the window size fetched (line 149), [size_opt]
    being what the parser handed over for [-size], and the functor built
    from it (line 151).  Nothing in these lines tests the size. *)
Definition run (dwi_in : Window.Image) (size_opt : option Z)
  : list event * Window.Functor :=
  let events := [opened_input; created_output] in
  let extent := get_option_value size_opt DEFAULT_SIZE in
  (events, Window.DenoisingFunctor dwi_in extent).

(** The command as a whole: the parser looks at the value supplied for
    [-size], if any, and [run] is entered when it lets the value
    through. *)
Definition command (dwi_in : Window.Image) (supplied : option Z)
  : option (list event * Window.Functor) :=
  match supplied with
  | None => Some (run dwi_in None)
  | Some v =>
      match parse_argument size_argument v with
      | Some v' => Some (run dwi_in (Some v'))
      | None => None
      end
  end.

(** A volume of 5 x 5 x 5 voxels and one channel, every sample being 1,
    with the cursor on the middle voxel: the window of half-width 2 is
    the whole volume. *)
Definition cube5 : Window.Image :=
  Window.mkImage (Window.mkVolume 5 5 5 1 (fun _ _ _ => [F32.of_Z 1])) 2 2 2.

End Options.

(* ===================================================================== *)
(** ** Thread count and the thread backend *)
(* ===================================================================== *)

Module Thread.

Import String Ascii.

(** [size_t], 64 bits wide. *)
Definition size_t := N.

Definition to_size_t (z : Z) : size_t := Z.to_N (z mod 2 ^ 64).

(** What [number_of_threads] consults besides its cache. *)
Record Sources := mkSources {
  (** [App::get_options ("nthreads")]: the value when the option is given *)
  opt_nthreads : option size_t;
  (** [getenv ("MRTRIX_NTHREADS")] *)
  env_nthreads : option string;
  (** the entry [NumberOfThreads] of the configuration file, an [int] *)
  config_nthreads : option Z;
  (** [std::thread::hardware_concurrency()] *)
  hardware_concurrency : Z
}.

Definition digit_of (c : ascii) : option N :=
  let k := N_of_ascii c in
  if (48 <=? k)%N && (k <=? 57)%N then Some (k - 48)%N else None.

Fixpoint parse_digits (s : string) (acc : N) : option N :=
  match s with
  | EmptyString => Some acc
  | String c s' =>
      match digit_of c with
      | Some d => parse_digits s' (10 * acc + d)%N
      | None => None
      end
  end.

(** Modelled from the spec: [to<size_t>] is declared in the core library,
    which is not part of the sources at hand; the text is parsed as an
    unsigned integer, and a text that is not one is an error ([None]). *)
Definition to (s : string) : option size_t :=
  match s with
  | EmptyString => None
  | _ =>
      match parse_digits s 0%N with
      | Some v => if (v <? 2 ^ 64)%N then Some v else None
      | None => None
      end
  end.

(** Modelled from the spec: [File::Config::get_int (key, default)] is the
    configuration's entry, the default when there is no entry. *)
Definition get_int (entry : option Z) (default : Z) : Z :=
  match entry with
  | Some v => v
  | None => default
  end.

Inductive result (A : Type) :=
| Ok (a : A)
| Exception.
Arguments Ok {A} a.
Arguments Exception {A}.

(** [number_of_threads ()], the static [__number_of_threads] being passed
    in and out. *)
Definition number_of_threads (src : Sources) (__number_of_threads : size_t)
  : result size_t * size_t :=
  if negb (__number_of_threads =? 0)%N then
    (Ok __number_of_threads, __number_of_threads)
  else
    match opt_nthreads src with
    | Some v => (Ok v, v)
    | None =>
        match env_nthreads src with
        | Some from_env =>
            match to from_env with
            | Some v => (Ok v, v)
            | None => (Exception, __number_of_threads)
            end
        | None =>
            let v := to_size_t (get_int (config_nthreads src)
                                        (hardware_concurrency src)) in
            (Ok v, v)
        end
    end.

(** The value of the first source that is present, in the order command
    line, environment, configuration (or hardware). *)
Definition first_source (src : Sources) : result size_t :=
  match opt_nthreads src, env_nthreads src with
  | Some v, _ => Ok v
  | None, Some from_env =>
      match to from_env with
      | Some v => Ok v
      | None => Exception
      end
  | None, None =>
      Ok (to_size_t (get_int (config_nthreads src) (hardware_concurrency src)))
  end.

(** *** The backend *)

(** The functions [print] and [report_to_user_func] may point to: the
    null pointer, a function installed by the application, or the
    mutex-protected wrapper of [__Backend]. *)
Inductive print_fn :=
| print_null
| print_user (id : nat)
| thread_print_func.

Inductive report_fn :=
| report_null
| report_user (id : nat)
| thread_report_to_user_func.

(** The process-wide state the backend acts on.  [backend] is [None] for
    the null pointer and holds the reference count of the live instance
    otherwise. *)
Record Process := mkProcess {
  print : print_fn;
  report_to_user_func : report_fn;
  previous_print_func : print_fn;
  previous_report_to_user_func : report_fn;
  backend : option nat
}.

(** A process before any backend was created: the two [previous_]
    pointers and [backend] are null. *)
Definition startup (p : print_fn) (rp : report_fn) : Process :=
  mkProcess p rp print_null report_null None.

(** [__Backend::__Backend ()] *)
Definition Backend_ctor (s : Process) : Process :=
  mkProcess thread_print_func thread_report_to_user_func
            (print s) (report_to_user_func s)
            (Some 0%nat).

(** [__Backend::~__Backend ()]; the caller resets [backend]. *)
Definition Backend_dtor (s : Process) : Process :=
  mkProcess (previous_print_func s) (previous_report_to_user_func s)
            (previous_print_func s) (previous_report_to_user_func s)
            (backend s).

Definition with_backend (s : Process) (b : option nat) : Process :=
  mkProcess (print s) (report_to_user_func s)
            (previous_print_func s) (previous_report_to_user_func s) b.

(** Modelled from the spec: acquiring and releasing the guard are declared
    in the thread header, which is not part of the sources at hand.
    [acquire] increments the reference count, creating the backend on the
    transition from 0 to 1. *)
Definition acquire (s : Process) : Process :=
  let s1 := match backend s with
            | None => Backend_ctor s
            | Some _ => s
            end in
  with_backend s1 (option_map S (backend s1)).

(** Modelled from the spec: [release] decrements the reference count and,
    on the transition from 1 to 0, destroys the backend and resets the
    pointer to it. *)
Definition release (s : Process) : Process :=
  match backend s with
  | Some 1%nat => with_backend (Backend_dtor s) None
  | Some c => with_backend s (Some (Nat.pred c))
  | None => s
  end.

(** Command lines and environments used as examples. *)
Definition zero_on_command_line : Sources :=
  mkSources (Some 0%N) (Some "4"%string) None 8.

Definition env_says (text : string) : Sources :=
  mkSources None (Some text) None 8.

End Thread.

(* ===================================================================== *)
(** ** The window within the volume *)
(* ===================================================================== *)

Module WindowLayout.

Import Window.

(** The whole window of half-width [e] around the cursor lies within the
    volume. *)
Definition window_inside (dwi : Image) (e : Z) : Prop :=
  0 <= index0 dwi - e /\ index0 dwi + e < size0 (vol dwi) /\
  0 <= index1 dwi - e /\ index1 dwi + e < size1 (vol dwi) /\
  0 <= index2 dwi - e /\ index2 dwi + e < size2 (vol dwi).

(** The column index the scan gives to the offset number [ix] along
    axis 0, [iy] along axis 1 and [iz] along axis 2, in a window of [t]
    offsets per axis. *)
Definition column_of (t ix iy iz : nat) : nat := ((iz * t + iy) * t + ix)%nat.

(** The samples at a position, whether inside the volume or not. *)
Definition samples (v : Volume) (p : position) : column :=
  let '(x, y, z) := p in row3 v x y z.

(** A functor as a previous voxel may have left it: the matrix of
    [DenoisingFunctor one_voxel 3] with every coefficient at 9. *)
Definition used_functor : Functor :=
  mkFunctor 1 1 27 1 (repeat [F32.of_Z 9] 27).

(** A volume of 3 x 3 x 3 voxels and one channel, the sample at
    [(x, y, z)] being [x + 3 y + 9 z], with the cursor on the middle
    voxel. *)
Definition cube3 : Image :=
  mkImage (mkVolume 3 3 3 1 (fun x y z => [F32.of_Z (x + 3 * y + 9 * z)]))
          1 1 1.

End WindowLayout.

(* ===================================================================== *)
(** ** Calls through the diagnostic function pointers *)
(* ===================================================================== *)

Module ThreadCalls.

Import String Thread.

(** What a call through [print] or [report_to_user_func] comes to: the
    message reaches a function of the application, the null pointer is
    called, or the call never returns because the backend's mutex, which
    is not recursive, is locked a second time. *)
Inductive outcome :=
| Printed (id : nat) (msg : string)
| Reported (id : nat) (msg : string) (type : Z)
| NullCall
| Deadlock.

(** [print (msg)].  [__Backend::thread_print_func] locks the mutex and
    calls [previous_print_func (msg)]. *)
Definition call_print (s : Process) (msg : string) : outcome :=
  match print s with
  | print_null => NullCall
  | print_user id => Printed id msg
  | thread_print_func =>
      match previous_print_func s with
      | print_null => NullCall
      | print_user id => Printed id msg
      | thread_print_func => Deadlock
      end
  end.

(** [report_to_user_func (msg, type)].
    [__Backend::thread_report_to_user_func] locks the mutex and calls
    [previous_report_to_user_func (msg, type)]. *)
Definition call_report (s : Process) (msg : string) (type : Z) : outcome :=
  match report_to_user_func s with
  | report_null => NullCall
  | report_user id => Reported id msg type
  | thread_report_to_user_func =>
      match previous_report_to_user_func s with
      | report_null => NullCall
      | report_user id => Reported id msg type
      | thread_report_to_user_func => Deadlock
      end
  end.

End ThreadCalls.

(* ===================================================================== *)
(** ** The image menu of the viewer *)
(* ===================================================================== *)

Module Viewer.

Local Open Scope nat_scope.

(** A [QAction*] that is not null. *)
Definition QAction := nat.

(** An exclusive [QActionGroup] of checkable actions, as [image_group]
    is: the actions in the order in which they were added, and the
    checked one, [None] standing for the null pointer that
    [checkedAction ()] returns when no action is checked. *)
Record QActionGroup := mkGroup {
  actions : list QAction;
  checkedAction : option QAction
}.

(** [a->setChecked (true)] on an action of the group: being exclusive, the
    group has [a] as its checked action afterwards. *)
Definition setChecked (a : QAction) (g : QActionGroup) : QActionGroup :=
  mkGroup (actions g) (Some a).

(** [action == list[n]] *)
Definition same (action : option QAction) (a : QAction) : bool :=
  match action with
  | Some b => b =? a
  | None => false
  end.

(** The loop shared by [next_image] and [previous_image],
    [for (int n = 0; n < list.size(); ++n)
       if (action == list[n]) { list[target]->setChecked (true); return; }],
    from the index [n] on; [target n size] is the index that is checked
    and [cnt] bounds the iterations that remain. *)
Fixpoint check_from (target : nat -> nat -> nat) (cnt n : nat)
         (action : option QAction) (list : list QAction) (g : QActionGroup)
  : QActionGroup :=
  match cnt with
  | O => g
  | S c =>
      if n <? length list then
        if same action (nth n list 0)
        then setChecked (nth (target n (length list)) list 0) g
        else check_from target c (S n) action list g
      else g
  end.

(** [Window::next_image]: the target is [(n+1) % list.size()]. *)
Definition next_image (g : QActionGroup) : QActionGroup :=
  check_from (fun n size => (n + 1) mod size)
             (length (actions g)) 0 (checkedAction g) (actions g) g.

(** [Window::previous_image]: the target is
    [(n+list.size()-1) % list.size()]. *)
Definition previous_image (g : QActionGroup) : QActionGroup :=
  check_from (fun n size => (n + size - 1) mod size)
             (length (actions g)) 0 (checkedAction g) (actions g) g.

End Viewer.

(* ===================================================================== *)
(** ** The options of the registration command *)
(* ===================================================================== *)

Module Register.

Import String Ascii.
Local Open Scope string_scope.

(** [transformation_choices], without the terminating [NULL]. *)
Definition transformation_choices : list string :=
  [ "rigid"; "affine"; "syn"; "rigid_affine"; "rigid_syn"; "affine_syn";
    "rigid_affine_syn" ].

(** The three flags set by the [switch] of [run]. *)
Record Stages := mkStages {
  do_rigid : bool;
  do_affine : bool;
  do_syn : bool
}.

(** [int registration_type = 5; if (opt.size()) registration_type = opt[0][0];] *)
Definition registration_type (type : option Z) : Z :=
  match type with
  | Some v => v
  | None => 5
  end.

(** [switch (registration_type) { ... }] *)
Definition stages_of (registration_type : Z) : Stages :=
  match registration_type with
  | 0 => mkStages true false false
  | 1 => mkStages false true false
  | 2 => mkStages false false true
  | 3 => mkStages true true false
  | 4 => mkStages true false true
  | 5 => mkStages false true true
  | 6 => mkStages true true true
  | _ => mkStages false false false
  end%Z.

(** The parts of a choice's name, which are separated by underscores. *)
Fixpoint parts_from (name : string) (current : string) : list string :=
  match name with
  | EmptyString => [current]
  | String c rest =>
      if Ascii.eqb c "_"%char
      then current :: parts_from rest EmptyString
      else parts_from rest (current ++ String c EmptyString)
  end.

Definition names_stage (stage name : string) : bool :=
  existsb (String.eqb stage) (parts_from name EmptyString).

(** *** The checks of the options against the stages *)

(** How [run] is left early: by one of its own exceptions, or by the
    exception of a parser on a malformed list. *)
Inductive failure :=
| Exception (msg : string)
| ParseError (text : string).

Inductive outcome (A : Type) :=
| Done (a : A)
| Failed (f : failure).
Arguments Done {A} a.
Arguments Failed {A} f.

Definition bind {A B : Type} (x : outcome A) (k : A -> outcome B) : outcome B :=
  match x with
  | Done a => k a
  | Failed f => Failed f
  end.

Notation "x <- c1 ;; c2" := (bind c1 (fun x => c2))
  (at level 61, c1 at next level, right associativity).

(** The options of the command line that [run] checks against the
    stages, each with the text of its argument when it is given. *)
Record CommandLine := mkCommandLine {
  type : option Z;
  rigid_out : option string;
  affine_out : option string;
  warp_out : option string;
  rigid_scale : option string;
  affine_scale : option string;
  rigid_smooth_factor : option string;
  affine_smooth_factor : option string;
  syn_scale : option string;
  rigid_niter : option string;
  affine_niter : option string;
  syn_niter : option string;
  smooth_update : option string;
  smooth_warp : option string;
  rigid_init : option string;
  affine_init : option string;
  syn_init : option string
}.

Section Checks.

(** [parse_floats] and [parse_ints] belong to the core library; they are
    taken as they come, an argument they reject being [None]. *)
Variables floats ints : Type.
Variable parse_floats : string -> option floats.
Variable parse_ints : string -> option ints.

Definition parse {A : Type} (parser : string -> option A) (text : string)
  : outcome A :=
  match parser text with
  | Some v => Done v
  | None => Failed (ParseError text)
  end.

(** [if (!stage) throw Exception (msg);] *)
Definition require (stage : bool) (msg : string) : outcome unit :=
  if stage then Done tt else Failed (Exception msg).

(** [if (opt.size()) { ... }] *)
Definition given {A B : Type} (opt : option A) (k : A -> outcome B)
  : outcome (option B) :=
  match opt with
  | Some a => b <- k a ;; Done (Some b)
  | None => Done None
  end.

(** What the checks hand over to the registration itself. *)
Record Plan := mkPlan {
  stages : Stages;
  rigid_filename : option string;
  affine_filename : option string;
  warp_filename : option string;
  rigid_scale_factors : option floats;
  affine_scale_factors : option floats;
  syn_scale_factors : option floats;
  rigid_niter_list : option ints;
  affine_niter_list : option ints;
  syn_niter_list : option ints
}.

(** The checks of [run] on the options that belong to a stage, in the
    order of the source, from the [switch] on the registration type to
    the option [syn_init].  The opening and creation of images that sit
    between them are left out.  The flags [init_rigid_set] and
    [init_affine_set] are still [false] where [syn_init] tests them: they
    are only set after an unconditional [throw]. *)
Definition check_options (cl : CommandLine) : outcome Plan :=
  let st := stages_of (registration_type (type cl)) in
  rigid_file <- given (rigid_out cl) (fun name =>
    _ <- require (do_rigid st)
      "rigid transformation output requested when no rigid registration is requested" ;;
    Done name) ;;
  affine_file <- given (affine_out cl) (fun name =>
    _ <- require (do_affine st)
      "affine transformation output requested when no affine registration is requested" ;;
    Done name) ;;
  warp_file <- given (warp_out cl) (fun name =>
    _ <- require (do_syn st)
      "SyN warp output requested when no SyN registration is requested" ;;
    Done name) ;;
  rigid_scales <- given (rigid_scale cl) (fun text =>
    _ <- require (do_rigid st)
      "the rigid multi-resolution scale factors were input when no rigid registration is requested" ;;
    parse parse_floats text) ;;
  affine_scales <- given (affine_scale cl) (fun text =>
    _ <- require (do_affine st)
      "the affine multi-resolution scale factors were input when no affine registration is requested" ;;
    parse parse_floats text) ;;
  _ <- given (rigid_smooth_factor cl) (fun _ =>
    require (do_rigid st)
      "the rigid smooth factor was input when no rigid registration is requested") ;;
  _ <- given (affine_smooth_factor cl) (fun _ =>
    require (do_affine st)
      "the affine smooth factor was input when no affine registration is requested") ;;
  syn_scales <- given (syn_scale cl) (fun text =>
    _ <- require (do_syn st)
      "the syn multi-resolution scale factors were input when no syn registration is requested" ;;
    parse parse_floats text) ;;
  rigid_iters <- given (rigid_niter cl) (fun text =>
    v <- parse parse_ints text ;;
    _ <- require (do_rigid st)
      "the number of rigid iterations have been input when no rigid registration is requested" ;;
    Done v) ;;
  affine_iters <- given (affine_niter cl) (fun text =>
    v <- parse parse_ints text ;;
    _ <- require (do_affine st)
      "the number of affine iterations have been input when no affine registration is requested" ;;
    Done v) ;;
  syn_iters <- given (syn_niter cl) (fun text =>
    _ <- require (do_syn st)
      "the number of syn iterations have been input when no SyN registration is requested" ;;
    parse parse_ints text) ;;
  _ <- given (smooth_update cl) (fun _ =>
    require (do_syn st)
      "the warp update field smoothing parameter was input with no SyN registration is requested") ;;
  _ <- given (smooth_warp cl) (fun _ =>
    require (do_syn st)
      "the warp field smoothing parameter was input with no SyN registration is requested") ;;
  _ <- given (rigid_init cl) (fun _ =>
    @Failed unit (Exception "initialise with rigid not yet implemented")) ;;
  _ <- given (affine_init cl) (fun _ =>
    @Failed unit (Exception "initialise with affine not yet implemented")) ;;
  _ <- given (syn_init cl) (fun _ =>
    @Failed unit (Exception "initialise with affine not yet implemented")) ;;
  Done (mkPlan st rigid_file affine_file warp_file
               rigid_scales affine_scales syn_scales
               rigid_iters affine_iters syn_iters).

(** An option is in order when, if it is given, its stage is requested. *)
Definition in_stage {A : Type} (opt : option A) (stage : bool) : Prop :=
  opt <> None -> stage = true.

(** A list option is in order when, in addition, its text parses. *)
Definition parses {A : Type} (parser : string -> option A) (opt : option string)
  : Prop :=
  forall text, opt = Some text -> parser text <> None.

(** The command lines that pass every check. *)
Definition consistent (cl : CommandLine) : Prop :=
  let st := stages_of (registration_type (type cl)) in
  in_stage (rigid_out cl) (do_rigid st) /\
  in_stage (affine_out cl) (do_affine st) /\
  in_stage (warp_out cl) (do_syn st) /\
  (in_stage (rigid_scale cl) (do_rigid st) /\ parses parse_floats (rigid_scale cl)) /\
  (in_stage (affine_scale cl) (do_affine st) /\ parses parse_floats (affine_scale cl)) /\
  in_stage (rigid_smooth_factor cl) (do_rigid st) /\
  in_stage (affine_smooth_factor cl) (do_affine st) /\
  (in_stage (syn_scale cl) (do_syn st) /\ parses parse_floats (syn_scale cl)) /\
  (in_stage (rigid_niter cl) (do_rigid st) /\ parses parse_ints (rigid_niter cl)) /\
  (in_stage (affine_niter cl) (do_affine st) /\ parses parse_ints (affine_niter cl)) /\
  (in_stage (syn_niter cl) (do_syn st) /\ parses parse_ints (syn_niter cl)) /\
  in_stage (smooth_update cl) (do_syn st) /\
  in_stage (smooth_warp cl) (do_syn st) /\
  rigid_init cl = None /\
  affine_init cl = None /\
  syn_init cl = None.

End Checks.

(** *** The detection of a spherical harmonic series *)

(** [(int) x] for a finite [float]: the fractional part is dropped.  The
    conversion of an infinity or of NaN is undefined; it does not arise
    below, where [x] is the root of a positive integer, shifted and
    scaled. *)
Definition int_of_float (x : float) : Z :=
  match x with
  | S754_finite s m e =>
      cond_Zopp s (if (0 <=? e)%Z then Zpos m * 2 ^ e else Zpos m / 2 ^ (- e))%Z
  | _ => 0%Z
  end.

(** [value_type val = (std::sqrt (float (1 + 8 * size3)) - 3.0) / 4.0]:
    the root is taken in [float], the subtraction and the division are
    done in [double], and the result is narrowed to [float]. *)
Definition sh_val (size3 : Z) : float :=
  F32.of_double
    (F32.ddiv
       (SFsub F32.dprec F32.demax
              (F32.to_double (F32.sqrt (F32.of_Z (1 + 8 * size3))))
              (binary_normalize F32.dprec F32.demax 3 0 false))
       (binary_normalize F32.dprec F32.demax 4 0 false)).

(** [!(val - (int)val) && do_reorientation && template_header.size(3) > 1] *)
Definition SH_series (size3 : Z) (do_reorientation : bool) : bool :=
  let val := sh_val size3 in
  SFeqb (F32.sub val (F32.of_Z (int_of_float val))) F32.zero
  && do_reorientation
  && (1 <? size3)%Z.

(** Whether [size3] exceeds 1 and [1 + 8 size3] is the square of an
    integer that leaves 3 when divided by 4, in exact arithmetic. *)
Definition square_of_3_mod_4 (size3 : Z) : bool :=
  let k := Z.sqrt (1 + 8 * size3) in
  ((k * k =? 1 + 8 * size3) && (k mod 4 =? 3) && (1 <? size3))%Z.

(** The sizes from [from] on, [cnt] of them, on which the test of [run]
    and the exact test agree. *)
Fixpoint agree_on (from : Z) (cnt : nat) : bool :=
  match cnt with
  | O => true
  | S c =>
      Bool.eqb (SH_series from true) (square_of_3_mod_4 from)
      && agree_on (from + 1) c
  end.

(** A command line that asks for a rigid registration and for its
    transformation. *)
Definition rigid_with_output : CommandLine :=
  mkCommandLine (Some 0%Z) (Some "rigid.txt") None None None None None None None
                None None None None None None None None.

(** A command line without any of the options. *)
Definition no_options : CommandLine :=
  mkCommandLine None None None None None None None None None
                None None None None None None None None.

End Register.

(* ===================================================================== *)
(** * Properties of the window loader *)
(* ===================================================================== *)

Module WindowFacts.

Import Window.

(** *** Ranges and window positions *)

Lemma length_zrange (cnt : nat) : forall lo, length (zrange lo cnt) = cnt.
Proof. induction cnt; intros lo; simpl; [reflexivity | now rewrite IHcnt]. Qed.

Lemma In_zrange (cnt : nat) :
  forall lo x, In x (zrange lo cnt) <-> lo <= x < lo + Z.of_nat cnt.
Proof.
  induction cnt; intros lo x; simpl.
  - split; [tauto | lia].
  - rewrite IHcnt. lia.
Qed.


Lemma trip_spec (e : Z) : 0 <= e -> Z.of_nat (trip e) = 2 * e + 1.
Proof. intros He. unfold trip. lia. Qed.

Lemma length_flat_map_const {A B : Type} (g : A -> list B) (c : nat) (l : list A) :
  (forall a, length (g a) = c) -> length (flat_map g l) = (length l * c)%nat.
Proof.
  intros Hg. induction l as [|a l IH]; simpl; [reflexivity|].
  rewrite length_app, Hg, IH. reflexivity.
Qed.

Lemma length_window_positions (e p0 p1 p2 : Z) :
  length (window_positions e p0 p1 p2) = (trip e * trip e * trip e)%nat.
Proof.
  unfold window_positions.
  rewrite (length_flat_map_const _ (trip e * trip e)%nat).
  - rewrite length_zrange. lia.
  - intros z. rewrite (length_flat_map_const _ (trip e)).
    + now rewrite length_zrange.
    + intros y. now rewrite length_map, length_zrange.
Qed.

Lemma In_window_positions (e p0 p1 p2 x y z : Z) :
  0 <= e ->
  In (x, y, z) (window_positions e p0 p1 p2) <->
  (p0 - e <= x <= p0 + e) /\ (p1 - e <= y <= p1 + e) /\ (p2 - e <= z <= p2 + e).
Proof.
  intros He. unfold window_positions.
  rewrite in_flat_map. split.
  - intros (z' & Hz & H). apply in_flat_map in H. destruct H as (y' & Hy & H).
    apply in_map_iff in H. destruct H as (x' & Heq & Hx).
    inversion Heq; subst.
    apply In_zrange in Hx, Hy, Hz. rewrite trip_spec in * by assumption. lia.
  - intros (Hx & Hy & Hz). exists z. split.
    + apply In_zrange. rewrite trip_spec by assumption. lia.
    + apply in_flat_map. exists y. split.
      * apply In_zrange. rewrite trip_spec by assumption. lia.
      * apply in_map_iff. exists x. split; [reflexivity|].
        apply In_zrange. rewrite trip_spec by assumption. lia.
Qed.

(** *** The scan over a list of positions *)

Lemma scan_app (v : Volume) (ps qs : list position) :
  forall a,
    scan v (ps ++ qs) a =
    match scan v ps a with
    | Some a' => scan v qs a'
    | None => None
    end.
Proof.
  induction ps as [|p ps IH]; intros a; simpl; [reflexivity|].
  destruct (visit_at v a p); [apply IH | reflexivity].
Qed.

(** The innermost loop is the scan of one row of the window. *)
Lemma for_le_ax0_scan (cnt : nat) :
  forall v i0 y z X k R,
    for_le cnt ax0 (i0 + Z.of_nat cnt - 1) visit incr0k
           (mkLoad (mkImage v i0 y z) X k R) =
    match scan v (map (fun x => (x, y, z)) (zrange i0 cnt)) (X, k, R) with
    | Some (X', k', R') =>
        Some (mkLoad (mkImage v (i0 + Z.of_nat cnt) y z) X' k' R')
    | None => None
    end.
Proof.
  induction cnt; intros v i0 y z X k R.
  - simpl. now rewrite Z.add_0_r.
  - replace (i0 + Z.of_nat (S cnt) - 1) with (i0 + 1 + Z.of_nat cnt - 1) by lia.
    replace (i0 + Z.of_nat (S cnt)) with (i0 + 1 + Z.of_nat cnt) by lia.
    cbn [for_le zrange map scan index ls_dwi index0].
    replace (i0 <=? i0 + 1 + Z.of_nat cnt - 1) with true
      by (symmetry; apply Z.leb_le; lia).
    unfold visit, visit_at, is_out_of_bounds, cursor.
    cbn [ls_dwi ls_X ls_k ls_reads vol index0 index1 index2].
    destruct (in_volume v (i0, y, z)); cbn [negb].
    + destruct (set_col X k (row3 v i0 y z)) as [X'|]; [|reflexivity].
      apply IHcnt.
    + apply IHcnt.
Qed.

Lemma loop0_scan (e p0 : Z) (v : Volume) (i0 y z : Z) X k R :
  0 <= e ->
  loop0 e p0 (mkLoad (mkImage v i0 y z) X k R) =
  match scan v (map (fun x => (x, y, z)) (zrange (p0 - e) (trip e))) (X, k, R) with
  | Some (X', k', R') => Some (mkLoad (mkImage v (p0 + e + 1) y z) X' k' R')
  | None => None
  end.
Proof.
  intros He. unfold loop0, with_index.
  cbn [set_index ls_dwi ls_X ls_k ls_reads vol index1 index2].
  pose proof (for_le_ax0_scan (trip e) v (p0 - e) y z X k R) as H.
  replace (p0 - e + Z.of_nat (trip e) - 1) with (p0 + e) in H
    by (rewrite trip_spec by assumption; lia).
  replace (p0 - e + Z.of_nat (trip e)) with (p0 + e + 1) in H
    by (rewrite trip_spec by assumption; lia).
  exact H.
Qed.

Lemma for_le_ax1_scan (e p0 : Z) (cnt : nat) :
  0 <= e ->
  forall v i0 i1 z X k R,
    agrees
      (for_le cnt ax1 (i1 + Z.of_nat cnt - 1) (loop0 e p0) (incr ax1)
              (mkLoad (mkImage v i0 i1 z) X k R))
      v
      (scan v (flat_map (fun y => map (fun x => (x, y, z))
                                      (zrange (p0 - e) (trip e)))
                        (zrange i1 cnt)) (X, k, R))
      (fun d => index1 d = i1 + Z.of_nat cnt /\ index2 d = z).
Proof.
  intros He. induction cnt; intros v i0 i1 z X k R.
  - simpl. repeat split; lia.
  - replace (i1 + Z.of_nat (S cnt) - 1) with (i1 + 1 + Z.of_nat cnt - 1) by lia.
    replace (i1 + Z.of_nat (S cnt)) with (i1 + 1 + Z.of_nat cnt) by lia.
    cbn [for_le zrange flat_map index ls_dwi index1].
    replace (i1 <=? i1 + 1 + Z.of_nat cnt - 1) with true
      by (symmetry; apply Z.leb_le; lia).
    rewrite scan_app, loop0_scan by assumption.
    destruct (scan v _ (X, k, R)) as [[[X' k'] R']|]; [|exact I].
    unfold incr, with_index. cbn [set_index ls_dwi ls_X ls_k ls_reads vol index index0 index1 index2].
    apply IHcnt.
Qed.

Lemma loop1_scan (e p0 p1 : Z) (st : LoadState) :
  0 <= e ->
  agrees (loop1 e p0 p1 st) (vol (ls_dwi st))
         (scan (vol (ls_dwi st))
               (flat_map (fun y => map (fun x => (x, y, index2 (ls_dwi st)))
                                       (zrange (p0 - e) (trip e)))
                         (zrange (p1 - e) (trip e))) (abs st))
         (fun d => index1 d = p1 + e + 1 /\ index2 d = index2 (ls_dwi st)).
Proof.
  intros He. destruct st as [[v i0 i1 i2] X k R].
  unfold loop1, with_index, abs.
  cbn [set_index ls_dwi ls_X ls_k ls_reads vol index0 index1 index2].
  pose proof (for_le_ax1_scan e p0 (trip e) He v i0 (p1 - e) i2 X k R) as H.
  replace (p1 - e + Z.of_nat (trip e) - 1) with (p1 + e) in H
    by (rewrite trip_spec by assumption; lia).
  replace (p1 - e + Z.of_nat (trip e)) with (p1 + e + 1) in H
    by (rewrite trip_spec by assumption; lia).
  exact H.
Qed.

Lemma for_le_ax2_scan (e p0 p1 : Z) (cnt : nat) :
  0 <= e ->
  forall v i0 i1 i2 X k R,
    agrees
      (for_le cnt ax2 (i2 + Z.of_nat cnt - 1) (loop1 e p0 p1) (incr ax2)
              (mkLoad (mkImage v i0 i1 i2) X k R))
      v
      (scan v (flat_map (fun z =>
                 flat_map (fun y => map (fun x => (x, y, z))
                                        (zrange (p0 - e) (trip e)))
                          (zrange (p1 - e) (trip e)))
                        (zrange i2 cnt)) (X, k, R))
      (fun d => index2 d = i2 + Z.of_nat cnt).
Proof.
  intros He. induction cnt; intros v i0 i1 i2 X k R.
  - simpl. repeat split; lia.
  - replace (i2 + Z.of_nat (S cnt) - 1) with (i2 + 1 + Z.of_nat cnt - 1) by lia.
    replace (i2 + Z.of_nat (S cnt)) with (i2 + 1 + Z.of_nat cnt) by lia.
    cbn [for_le zrange flat_map index ls_dwi index2].
    replace (i2 <=? i2 + 1 + Z.of_nat cnt - 1) with true
      by (symmetry; apply Z.leb_le; lia).
    rewrite scan_app.
    pose proof (loop1_scan e p0 p1 (mkLoad (mkImage v i0 i1 i2) X k R) He) as H1.
    unfold agrees, abs in H1.
    cbn [ls_dwi ls_X ls_k ls_reads vol index2] in H1.
    destruct (loop1 e p0 p1 _) as [st1|];
      destruct (scan v _ (X, k, R)) as [a1|]; try contradiction; [|exact I].
    destruct H1 as (Hv & Ha & _ & Hi2).
    destruct st1 as [[v1 j0 j1 j2] X1 k1 R1].
    cbn [ls_dwi ls_X ls_k ls_reads vol index2] in Hv, Ha, Hi2. subst v1 j2 a1.
    unfold incr, with_index.
    cbn [set_index ls_dwi ls_X ls_k ls_reads vol index index0 index1 index2].
    apply IHcnt.
Qed.

(** The three loops visit the window positions in order, and leave the
    axis-2 cursor one past the window. *)
Lemma loop2_scan (e p0 p1 p2 : Z) (st : LoadState) :
  0 <= e ->
  agrees (loop2 e p0 p1 p2 st) (vol (ls_dwi st))
         (scan (vol (ls_dwi st)) (window_positions e p0 p1 p2) (abs st))
         (fun d => index2 d = p2 + e + 1).
Proof.
  intros He. destruct st as [[v i0 i1 i2] X k R].
  unfold loop2, with_index, abs, window_positions.
  cbn [set_index ls_dwi ls_X ls_k ls_reads vol index0 index1 index2].
  pose proof (for_le_ax2_scan e p0 p1 (trip e) He v i0 i1 (p2 - e) X k R) as H.
  replace (p2 - e + Z.of_nat (trip e) - 1) with (p2 + e) in H
    by (rewrite trip_spec by assumption; lia).
  replace (p2 - e + Z.of_nat (trip e)) with (p2 + e + 1) in H
    by (rewrite trip_spec by assumption; lia).
  exact H.
Qed.

Lemma load_data_scan (f : Functor) (dwi : Image) :
  0 <= extent f ->
  agrees (load_data f dwi) (vol dwi)
         (scan (vol dwi)
               (window_positions (extent f) (index0 dwi) (index1 dwi) (index2 dwi))
               (setZero (X f), 0, []))
         (fun d => d = dwi).
Proof.
  intros He. unfold load_data.
  pose proof (loop2_scan (extent f) (index0 dwi) (index1 dwi) (index2 dwi)
                         (mkLoad dwi (setZero (X f)) 0 []) He) as H.
  unfold agrees, abs in *. cbn [ls_dwi ls_X ls_k ls_reads] in H.
  destruct (loop2 _ _ _ _ _) as [st|]; destruct (scan _ _ _) as [a|];
    try contradiction; [|exact I].
  destruct H as (Hv & Ha & _).
  destruct st as [[v i0 i1 i2] X1 k1 R1]. destruct dwi as [v0 q0 q1 q2].
  cbn in *. subst. repeat split.
Qed.

Lemma replace_nth_app (A : matrix) (b : column) (B : matrix) (c : column) :
  replace_nth (length A) c (A ++ b :: B) = A ++ c :: B.
Proof. induction A as [|a A IH]; simpl; [reflexivity | now rewrite IH]. Qed.

Lemma set_col_app (A : matrix) (b : column) (B : matrix) (c : column) :
  set_col (A ++ b :: B) (Z.of_nat (length A)) c = Some (A ++ c :: B).
Proof.
  unfold set_col. rewrite length_app. cbn [length].
  replace ((0 <=? Z.of_nat (length A)) &&
           (Z.of_nat (length A) <? Z.of_nat (length A + S (length B)))) with true.
  - now rewrite Nat2Z.id, replace_nth_app.
  - symmetry. apply andb_true_iff. split; [apply Z.leb_le | apply Z.ltb_lt]; lia.
Qed.

(** A scan that starts at column [length A] and has a column left for each
    position never leaves the matrix: it succeeds, fills the columns of the
    positions inside the volume, and reads exactly those positions. *)
Lemma scan_fill (v : Volume) (ps : list position) :
  forall A B R,
    length B = length ps ->
    scan v ps (A ++ B, Z.of_nat (length A), R) =
    Some (A ++ fill v ps B,
          Z.of_nat (length A + length ps),
          rev (filter (in_volume v) ps) ++ R).
Proof.
  induction ps as [|[[x y] z] ps IH]; intros A B R HB.
  - destruct B; [|discriminate]. simpl. now rewrite Nat.add_0_r.
  - destruct B as [|b B]; [discriminate|]. injection HB as HB.
    cbn [scan visit_at fill filter].
    destruct (in_volume v (x, y, z)).
    + rewrite set_col_app.
      replace (A ++ row3 v x y z :: B) with ((A ++ [row3 v x y z]) ++ B)
        by (now rewrite <- app_assoc).
      replace (Z.of_nat (length A) + 1) with (Z.of_nat (length (A ++ [row3 v x y z])))
        by (rewrite length_app; simpl; lia).
      rewrite IH by assumption.
      rewrite length_app. cbn [length rev].
      rewrite <- !app_assoc.
      replace (length A + 1 + length ps)%nat with (length A + S (length ps))%nat by lia.
      reflexivity.
    + replace (A ++ b :: B) with ((A ++ [b]) ++ B) by (now rewrite <- app_assoc).
      replace (Z.of_nat (length A) + 1) with (Z.of_nat (length (A ++ [b])))
        by (rewrite length_app; simpl; lia).
      rewrite IH by assumption.
      rewrite length_app. cbn [length].
      rewrite <- !app_assoc.
      replace (length A + 1 + length ps)%nat with (length A + S (length ps))%nat by lia.
      reflexivity.
Qed.

(** Over a zeroed matrix, the columns left by the scan are the window
    columns: samples inside the volume, zeros outside. *)
Lemma fill_setZero (v : Volume) (rows : nat) (ps : list position) :
  forall B,
    length B = length ps ->
    Forall (fun c => length c = rows) B ->
    fill v ps (setZero B) = map (window_col v rows) ps.
Proof.
  induction ps as [|[[x y] z] ps IH]; intros B HB HF.
  - destruct B; [reflexivity | discriminate].
  - destruct B as [|b B]; [discriminate|]. injection HB as HB.
    inversion HF as [|? ? Hb HF']; subst.
    cbn [setZero map fill window_col].
    fold (setZero B). rewrite IH by assumption.
    f_equal. destruct (in_volume v (x, y, z)); [reflexivity|].
    clear. induction b; simpl; [reflexivity | now rewrite IHb].
Qed.

Lemma length_setZero (B : matrix) : length (setZero B) = length B.
Proof. unfold setZero. apply length_map. Qed.

Lemma filter_all_inside (v : Volume) (ps : list position) :
  Forall (fun p => in_volume v p = true) (rev (filter (in_volume v) ps)).
Proof.
  apply Forall_forall. intros p Hp.
  apply in_rev, filter_In in Hp. tauto.
Qed.

Lemma filter_length_lt {A : Type} (g : A -> bool) (l : list A) (x : A) :
  In x l -> g x = false -> (length (filter g l) < length l)%nat.
Proof.
  induction l as [|a l IH]; intros Hin Hx; [contradiction|].
  pose proof (filter_length_le g l) as Hle.
  destruct Hin as [->|Hin]; simpl.
  - rewrite Hx. lia.
  - specialize (IH Hin Hx). destruct (g a); simpl; lia.
Qed.

(** What [load_data] computes for a well-formed functor. *)
Lemma load_data_result (f : Functor) (dwi : Image) :
  wf_functor f ->
  let ps := window_positions (extent f) (index0 dwi) (index1 dwi) (index2 dwi) in
  exists st,
    load_data f dwi = Some st /\
    ls_dwi st = dwi /\
    ls_X st = map (window_col (vol dwi) (m f)) ps /\
    ls_k st = Z.of_nat (n f) /\
    ls_reads st = rev (filter (in_volume (vol dwi)) ps).
Proof.
  intros (He & HX & Hn & HF) ps.
  pose proof (load_data_scan f dwi He) as H. fold ps in H.
  assert (Hlen : length (setZero (X f)) = length ps).
  { unfold ps. rewrite length_setZero, length_window_positions. congruence. }
  pose proof (scan_fill (vol dwi) ps [] (setZero (X f)) [] Hlen) as Hs.
  cbn [app length Nat.add Z.of_nat] in Hs.
  unfold matrix in H. rewrite Hs in H. unfold agrees in H.
  destruct (load_data f dwi) as [st|]; [|contradiction].
  destruct H as (_ & Ha & Hd). exists st.
  unfold abs in Ha. injection Ha as HXs Hk HR.
  rewrite length_setZero in Hlen.
  repeat split; try assumption.
  - rewrite HXs. apply fill_setZero; assumption.
  - rewrite Hk. f_equal. congruence.
  - rewrite HR. apply app_nil_r.
Qed.




Lemma border_has_outside_neighbour (dwi : Image) (e : Z) :
  1 <= e -> on_border dwi ->
  exists p,
    In p (window_positions e (index0 dwi) (index1 dwi) (index2 dwi)) /\
    in_volume (vol dwi) p = false.
Proof.
  intros He (Hin & Hb).
  unfold cursor, in_volume, in_axis in Hin.
  apply andb_true_iff in Hin. destruct Hin as (Hin & Hz).
  apply andb_true_iff in Hin. destruct Hin as (Hx & Hy).
  assert (Hfalse : forall i size, i < 0 \/ size <= i -> in_axis i size = false).
  { intros i size H. unfold in_axis. apply andb_false_iff.
    destruct H; [left; apply Z.leb_gt | right; apply Z.ltb_ge]; lia. }
  destruct Hb as [H|[H|[H|[H|[H|H]]]]].
  - exists (index0 dwi - 1, index1 dwi, index2 dwi). split.
    + apply In_window_positions; lia.
    + unfold in_volume. rewrite (Hfalse (index0 dwi - 1)) by lia. reflexivity.
  - exists (index0 dwi + 1, index1 dwi, index2 dwi). split.
    + apply In_window_positions; lia.
    + unfold in_volume. rewrite (Hfalse (index0 dwi + 1)) by lia. reflexivity.
  - exists (index0 dwi, index1 dwi - 1, index2 dwi). split.
    + apply In_window_positions; lia.
    + unfold in_volume. rewrite (Hfalse (index1 dwi - 1)) by lia.
      now rewrite andb_false_r.
  - exists (index0 dwi, index1 dwi + 1, index2 dwi). split.
    + apply In_window_positions; lia.
    + unfold in_volume. rewrite (Hfalse (index1 dwi + 1)) by lia.
      now rewrite andb_false_r.
  - exists (index0 dwi, index1 dwi, index2 dwi - 1). split.
    + apply In_window_positions; lia.
    + unfold in_volume. rewrite (Hfalse (index2 dwi - 1)) by lia.
      now rewrite andb_false_r.
  - exists (index0 dwi, index1 dwi, index2 dwi + 1). split.
    + apply In_window_positions; lia.
    + unfold in_volume. rewrite (Hfalse (index2 dwi + 1)) by lia.
      now rewrite andb_false_r.
Qed.

Lemma one_voxel_wf : wf_functor (DenoisingFunctor one_voxel 3).
Proof.
  unfold wf_functor. vm_compute.
  split; [discriminate|]. split; [reflexivity|]. split; [reflexivity|].
  repeat constructor.
Defined.

(** *** The claims about the window loader *)

(** C1, as the code has it.  For every centre and extent, the loader
    visits every offset of the window and advances the column index at
    each of them; it writes the samples of a position into the column of
    that offset only when the position is inside the volume, and leaves
    the column at zero otherwise.  The matrix keeps its [n] columns; the
    number of columns written (positions read) is at most [n], strictly
    less when the centre touches a face of the volume, and no position
    outside of the volume is read. *)
Theorem load_data_window (f : Functor) (dwi : Image) :
  wf_functor f ->
  let ps := window_positions (extent f) (index0 dwi) (index1 dwi) (index2 dwi) in
  exists st,
    load_data f dwi = Some st /\
    ls_X st = map (window_col (vol dwi) (m f)) ps /\
    length (ls_X st) = n f /\
    ls_reads st = rev (filter (in_volume (vol dwi)) ps) /\
    Forall (fun p => in_volume (vol dwi) p = true) (ls_reads st) /\
    (length (ls_reads st) <= n f)%nat /\
    (1 <= extent f -> on_border dwi -> (length (ls_reads st) < n f)%nat).
Proof.
  intros Hwf ps.
  destruct (load_data_result f dwi Hwf) as (st & Hl & _ & HX & _ & HR).
  fold ps in HX, HR.
  destruct Hwf as (He & HXn & Hn & HF).
  assert (Hps : length ps = n f).
  { unfold ps. rewrite length_window_positions. congruence. }
  exists st. repeat split; try assumption.
  - rewrite HX, length_map. assumption.
  - rewrite HR. apply filter_all_inside.
  - rewrite HR, length_rev, <- Hps. apply filter_length_le.
  - intros He1 Hb.
    destruct (border_has_outside_neighbour dwi (extent f) He1 Hb) as (p & Hp & Hout).
    rewrite HR, length_rev, <- Hps.
    apply filter_length_lt with p; assumption.
Qed.

Lemma load_data_window_witness :
  wf_functor (DenoisingFunctor one_voxel 3) /\
  exists st,
    load_data (DenoisingFunctor one_voxel 3) one_voxel = Some st /\
    Forall (fun p => in_volume (vol one_voxel) p = true) (ls_reads st).
Proof.
  split; [exact one_voxel_wf|].
  destruct (load_data_window (DenoisingFunctor one_voxel 3) one_voxel one_voxel_wf)
    as (st & H1 & _ & _ & _ & H5 & _).
  exists st. split; assumption.
Defined.

(** C1 as stated fails: on the corner voxel of a one-voxel volume with a
    window of size 3, the matrix still has all 27 columns (not fewer), the
    column of the first, outside, offset is present and zero, and the only
    sample read sits in column 13 rather than being appended first. *)
Lemma load_data_zero_fills_outside :
  match load_data (DenoisingFunctor one_voxel 3) one_voxel with
  | Some st =>
      in_volume (vol one_voxel) (-1, -1, -1) = false /\
      length (ls_X st) = 27%nat /\
      ~ (length (ls_X st) < 3 * 3 * 3)%nat /\
      nth 0 (ls_X st) [] = [F32.zero] /\
      nth 13 (ls_X st) [] = [F32.of_Z 7] /\
      ls_reads st = [(0, 0, 0)]
  | None => False
  end.
Proof.
  vm_compute. repeat split. intros H. apply Nat.lt_irrefl in H. exact H.
Qed.

(** C9.  For every centre position, the loader finishes and leaves the
    three spatial indices of the image on the centre; the image handle is
    as it was before the call. *)
Theorem load_data_restores_cursor (f : Functor) (dwi : Image) :
  wf_functor f ->
  exists st,
    load_data f dwi = Some st /\
    index0 (ls_dwi st) = index0 dwi /\
    index1 (ls_dwi st) = index1 dwi /\
    index2 (ls_dwi st) = index2 dwi /\
    ls_dwi st = dwi.
Proof.
  intros Hwf.
  destruct (load_data_result f dwi Hwf) as (st & Hl & Hd & _).
  exists st. rewrite Hd. repeat split. assumption.
Qed.

Lemma load_data_restores_cursor_witness :
  wf_functor (DenoisingFunctor one_voxel 3) /\
  exists st,
    load_data (DenoisingFunctor one_voxel 3) one_voxel = Some st /\
    ls_dwi st = one_voxel.
Proof.
  split; [exact one_voxel_wf|].
  destruct (load_data_restores_cursor (DenoisingFunctor one_voxel 3) one_voxel
                                      one_voxel_wf)
    as (st & H1 & _ & _ & _ & H5).
  exists st. split; assumption.
Defined.



(** The precondition of C10 matters: with the even size 2 the extent is 1,
    the loops still cover 27 offsets while [X] has 8 columns, and the
    sample of the centre is written to column 13. *)
Example load_data_even_size_leaves_matrix :
  load_data (DenoisingFunctor one_voxel 2) one_voxel = None.
Proof. reflexivity. Qed.

End WindowFacts.

(* ===================================================================== *)
(** * Properties of the component selection *)
(* ===================================================================== *)

Module DenoiseFacts.

Import Denoise.
Local Open Scope nat_scope.

Section FirstIndex.

Variable test : nat -> bool.

Lemma first_index_bounds (cnt : nat) :
  forall from, from <= first_index test from cnt <= from + cnt.
Proof.
  induction cnt; intros from; simpl; [lia|].
  destruct (test from); [lia|]. specialize (IHcnt (S from)). lia.
Qed.

Lemma first_index_before (cnt : nat) :
  forall from i, from <= i < first_index test from cnt -> test i = false.
Proof.
  induction cnt; intros from i Hi; simpl in Hi; [lia|].
  destruct (test from) eqn:E; [lia|].
  destruct (Nat.eq_dec i from) as [->|Hne]; [assumption|].
  apply (IHcnt (S from)). lia.
Qed.

Lemma first_index_hit (cnt : nat) :
  forall from,
    first_index test from cnt < from + cnt ->
    test (first_index test from cnt) = true.
Proof.
  induction cnt; intros from H; simpl in *; [lia|].
  destruct (test from) eqn:E; [assumption|].
  apply IHcnt. lia.
Qed.

Lemma first_index_unique (cnt : nat) :
  forall from p,
    from <= p < from + cnt ->
    test p = true ->
    (forall q, from <= q < p -> test q = false) ->
    first_index test from cnt = p.
Proof.
  intros from p Hp Ht Hq.
  pose proof (first_index_bounds cnt from) as Hb.
  destruct (Nat.lt_trichotomy (first_index test from cnt) p) as [H|[H|H]].
  - assert (first_index test from cnt < from + cnt) as Hlt by lia.
    apply first_index_hit in Hlt. rewrite Hq in Hlt by lia. discriminate.
  - assumption.
  - rewrite (first_index_before cnt from p) in Ht by lia. discriminate.
Qed.

Lemma first_index_none (cnt : nat) :
  forall from,
    (forall q, from <= q < from + cnt -> test q = false) ->
    first_index test from cnt = from + cnt.
Proof.
  intros from Hq.
  pose proof (first_index_bounds cnt from) as Hb.
  destruct (Nat.eq_dec (first_index test from cnt) (from + cnt)) as [H|H];
    [assumption|].
  assert (first_index test from cnt < from + cnt) as Hlt by lia.
  apply first_index_hit in Hlt. rewrite Hq in Hlt by lia. discriminate.
Qed.

End FirstIndex.

Section SelectLoop.

Variables m n r : nat.
Variables lam clam : vector.

(** The loop stops at the first index at which its test holds. *)
Lemma select_loop_index (cnt : nat) :
  forall p s1,
    p + cnt = r ->
    fst (select_loop m n r lam clam cnt p s1) =
    first_index (noise_at m n r lam clam) p cnt.
Proof.
  induction cnt; intros p s1 Hp; simpl; [reflexivity|].
  replace (p <? r) with true by (symmetry; apply Nat.ltb_lt; lia).
  unfold noise_at at 1.
  destruct (F32.ltb (sigsq2 m n r lam p) (sigsq1 m n r clam p)); [reflexivity|].
  apply IHcnt. lia.
Qed.

(** When the loop stops before [r], [sigsq1] holds its value at the index
    at which it stopped. *)
Lemma select_loop_sigsq1 (cnt : nat) :
  forall p s1,
    p + cnt = r ->
    fst (select_loop m n r lam clam cnt p s1) < r ->
    snd (select_loop m n r lam clam cnt p s1) =
    sigsq1 m n r clam (fst (select_loop m n r lam clam cnt p s1)).
Proof.
  induction cnt; intros p s1 Hp Hlt; simpl in *; [lia|].
  replace (p <? r) with true in * by (symmetry; apply Nat.ltb_lt; lia).
  destruct (F32.ltb (sigsq2 m n r lam p) (sigsq1 m n r clam p)); [reflexivity|].
  apply IHcnt; [lia | assumption].
Qed.

End SelectLoop.

Lemma size_t_sub_le (a b : nat) :
  (Z.of_nat a < 2 ^ 64)%Z -> b <= a -> size_t_sub a b = a - b.
Proof.
  intros Ha Hb. unfold size_t_sub.
  rewrite Z.mod_small by lia. lia.
Qed.

Lemma tail_setZero_0 (s : vector) : tail_setZero s 0 = s.
Proof.
  unfold tail_setZero. rewrite Nat.sub_0_r, firstn_all. apply app_nil_r.
Qed.

Lemma spectral_stage_p (m n r : nat) (s : vector) (sigsq1_0 : float) :
  sp_p (spectral_stage m n r s sigsq1_0) =
  first_index (noise_at m n r (eigenvalues n s) (cumulative r (eigenvalues n s))) 0 r.
Proof.
  unfold spectral_stage.
  pose proof (select_loop_index m n r (eigenvalues n s)
                (cumulative r (eigenvalues n s)) r 0 sigsq1_0 eq_refl) as H.
  destruct (select_loop _ _ _ _ _ _ _ _) as [p s1]. exact H.
Qed.

Lemma spectral_stage_sigma (m n r : nat) (s : vector) (sigsq1_0 : float) :
  let sp := spectral_stage m n r s sigsq1_0 in
  sp_sigma sp =
  if sp_p sp =? r then F32.NaN
  else F32.sqrt (sigsq1 m n r (cumulative r (eigenvalues n s)) (sp_p sp)).
Proof.
  unfold spectral_stage.
  pose proof (select_loop_index m n r (eigenvalues n s)
                (cumulative r (eigenvalues n s)) r 0 sigsq1_0 eq_refl) as Hi.
  pose proof (select_loop_sigsq1 m n r (eigenvalues n s)
                (cumulative r (eigenvalues n s)) r 0 sigsq1_0 eq_refl) as Hs.
  pose proof (first_index_bounds
                (noise_at m n r (eigenvalues n s) (cumulative r (eigenvalues n s)))
                r 0) as Hb.
  destruct (select_loop _ _ _ _ _ _ _ _) as [p s1].
  cbn [fst snd sp_p sp_sigma] in *.
  destruct (p =? r) eqn:E; [reflexivity|].
  apply Nat.eqb_neq in E. rewrite Hs by lia. reflexivity.
Qed.

Lemma spectral_stage_s (m n r : nat) (s : vector) (sigsq1_0 : float) :
  let sp := spectral_stage m n r s sigsq1_0 in
  sp_s sp = tail_setZero s (size_t_sub r (sp_p sp)).
Proof.
  unfold spectral_stage.
  destruct (select_loop _ _ _ _ _ _ _ _) as [p s1]. reflexivity.
Qed.

(** *** The claims about the selection *)

(** C2, as the code has it.  Scanning [p] upwards from 0, the first index
    at which [sigsq2 < sigsq1] holds (strictly) is the boundary: the test
    fails at every index below the selected [p], it holds at [p] when
    [p < r], the singular values [0..p-1] are kept and [p..r-1] are set to
    zero. *)
Theorem selection_boundary (m n r : nat) (s : vector) (sigsq1_0 : float) :
  (Z.of_nat r < 2 ^ 64)%Z ->
  length s = r ->
  let lam := eigenvalues n s in
  let clam := cumulative r lam in
  let sp := spectral_stage m n r s sigsq1_0 in
  sp_p sp <= r /\
  (forall q, q < sp_p sp ->
             F32.ltb (sigsq2 m n r lam q) (sigsq1 m n r clam q) = false) /\
  (sp_p sp < r ->
   F32.ltb (sigsq2 m n r lam (sp_p sp)) (sigsq1 m n r clam (sp_p sp)) = true) /\
  sp_s sp = firstn (sp_p sp) s ++ repeat F32.zero (r - sp_p sp).
Proof.
  intros Hr Hlen lam clam sp.
  pose proof (spectral_stage_p m n r s sigsq1_0) as Hp.
  fold lam clam sp in Hp.
  pose proof (first_index_bounds (noise_at m n r lam clam) r 0) as Hb.
  rewrite <- Hp in Hb.
  repeat split.
  - lia.
  - intros q Hq.
    apply (first_index_before (noise_at m n r lam clam) r 0 q).
    rewrite <- Hp. lia.
  - intros Hlt. rewrite Hp.
    apply (first_index_hit (noise_at m n r lam clam) r 0).
    rewrite <- Hp. lia.
  - unfold sp. rewrite spectral_stage_s. fold sp.
    rewrite size_t_sub_le by lia.
    unfold tail_setZero. do 2 f_equal. lia.
Qed.

Lemma selection_boundary_witness :
  (Z.of_nat 2 < 2 ^ 64)%Z /\
  length [F32.of_Z 3; F32.zero] = 2 /\
  sp_s (spectral_stage 2 27 2 [F32.of_Z 3; F32.zero] F32.NaN) =
  firstn (sp_p (spectral_stage 2 27 2 [F32.of_Z 3; F32.zero] F32.NaN))
         [F32.of_Z 3; F32.zero]
  ++ repeat F32.zero (2 - sp_p (spectral_stage 2 27 2 [F32.of_Z 3; F32.zero] F32.NaN)).
Proof.
  split; [reflexivity|]. split; [reflexivity|].
  apply (selection_boundary 2 27 2 [F32.of_Z 3; F32.zero] F32.NaN eq_refl eq_refl).
Defined.

(** C2 as stated fails on a tie.  With the singular values [3, 0] of a
    centred matrix of rank 1 ([m = 2], [n = 27]), both estimators are 0 at
    [p = 1]: [sigsq2 <= sigsq1] holds there, so the boundary of the
    statement is 1, but the loop does not stop and leaves with [p = 2]. *)
Lemma selection_tie_is_not_boundary :
  let s := [F32.of_Z 3; F32.zero] in
  let lam := eigenvalues 27 s in
  let clam := cumulative 2 lam in
  F32.leb (sigsq2 2 27 2 lam 0) (sigsq1 2 27 2 clam 0) = false /\
  F32.leb (sigsq2 2 27 2 lam 1) (sigsq1 2 27 2 clam 1) = true /\
  boundary_le 2 27 2 lam clam = 1 /\
  sp_p (spectral_stage 2 27 2 s F32.NaN) = 2 /\
  sp_p (spectral_stage 2 27 2 s F32.NaN) <> boundary_le 2 27 2 lam clam.
Proof.
  vm_compute. repeat split; discriminate.
Qed.

(** A spectrum of zeros, as a window of identical samples would give
    after centring in exact arithmetic, is a tie at every index: the loop
    runs to the end. *)
Example zero_spectrum_is_degenerate :
  spectral_stage 3 27 3 [F32.zero; F32.zero; F32.zero] F32.NaN =
  mkSpectrum 3 [F32.zero; F32.zero; F32.zero] F32.NaN.
Proof. vm_compute. reflexivity. Qed.

(** C3, as the code has it.  When [sigsq2 < sigsq1] holds at no [p < r],
    the loop runs to [p = r]: [sigma] is NaN and no singular value is set
    to zero.  Otherwise [sigma] is the square root of [sigsq1] at the
    selected [p], the first index at which [sigsq2 < sigsq1] holds.  An
    index at which the two estimators are equal counts for nothing. *)
Theorem degenerate_or_sigma (m n r : nat) (s : vector) (sigsq1_0 : float) :
  let lam := eigenvalues n s in
  let clam := cumulative r lam in
  let sp := spectral_stage m n r s sigsq1_0 in
  ((forall q, q < r -> noise_at m n r lam clam q = false) ->
   sp_p sp = r /\ sp_sigma sp = F32.NaN /\ sp_s sp = s) /\
  (forall p, p < r ->
             noise_at m n r lam clam p = true ->
             (forall q, q < p -> noise_at m n r lam clam q = false) ->
             sp_p sp = p /\ sp_sigma sp = F32.sqrt (sigsq1 m n r clam p)).
Proof.
  intros lam clam sp.
  pose proof (spectral_stage_p m n r s sigsq1_0) as Hp.
  pose proof (spectral_stage_sigma m n r s sigsq1_0) as Hsig.
  pose proof (spectral_stage_s m n r s sigsq1_0) as Hs.
  cbv zeta in Hsig, Hs. fold lam clam sp in Hp, Hsig, Hs.
  split.
  - intros Hnone.
    assert (Hr : sp_p sp = r).
    { rewrite Hp. apply (first_index_none _ r 0). intros q Hq. apply Hnone. lia. }
    rewrite Hsig, Hs, Hr, Nat.eqb_refl. repeat split.
    unfold size_t_sub. rewrite Z.sub_diag, Z.mod_0_l by (apply Z.pow_nonzero; lia).
    apply tail_setZero_0.
  - intros p Hlt Ht Hq.
    assert (Hpp : sp_p sp = p).
    { rewrite Hp. apply first_index_unique; [lia | assumption |].
      intros q Hq'. apply Hq. lia. }
    rewrite Hsig, Hpp.
    replace (p =? r) with false by (symmetry; apply Nat.eqb_neq; lia).
    split; reflexivity.
Qed.

(** C3 as stated fails on a tie.  With the singular values [3, 0]
    ([m = 2], [n = 27]) the estimators are both 0 at [p = 1], so that
    [sigsq2 <= sigsq1] holds there and the statement gives [sigma] as the
    square root of [sigsq1] at that index, which is 0; the loop does not
    stop, and [sigma] is NaN. *)
Lemma tie_gives_NaN_not_sigma :
  let s := [F32.of_Z 3; F32.zero] in
  let lam := eigenvalues 27 s in
  let clam := cumulative 2 lam in
  let sp := spectral_stage 2 27 2 s F32.NaN in
  F32.leb (sigsq2 2 27 2 lam 1) (sigsq1 2 27 2 clam 1) = true /\
  boundary_le 2 27 2 lam clam = 1 /\
  F32.sqrt (sigsq1 2 27 2 clam (boundary_le 2 27 2 lam clam)) = F32.zero /\
  sp_sigma sp = F32.NaN /\
  sp_sigma sp <> F32.sqrt (sigsq1 2 27 2 clam (boundary_le 2 27 2 lam clam)).
Proof.
  vm_compute. repeat split; discriminate.
Qed.

End DenoiseFacts.

(* ===================================================================== *)
(** * Properties of the option handling *)
(* ===================================================================== *)

Module OptionsFacts.

Import Window Options.

(** What the parser and [run] do with the size: 5 when it is not given,
    a value between 0 and 50 as it is, nothing at all (no image is
    touched) for a value outside of that range. *)
Lemma command_size_range (dwi : Image) :
  command dwi None = Some (run dwi None) /\
  snd (run dwi None) = DenoisingFunctor dwi 5 /\
  (forall v, 0 <= v <= 50 -> command dwi (Some v) = Some (run dwi (Some v))) /\
  (forall v, v < 0 \/ 50 < v -> command dwi (Some v) = None) /\
  (forall v, 0 <= v -> extent (snd (run dwi (Some v))) = v / 2).
Proof.
  split; [reflexivity|]. split; [reflexivity|]. split; [|split].
  - intros v Hv. unfold command, parse_argument, size_argument. cbn [arg_min arg_max].
    replace ((0 <=? v) && (v <=? 50)) with true; [reflexivity|].
    symmetry. apply andb_true_iff. split; apply Z.leb_le; lia.
  - intros v Hv. unfold command, parse_argument, size_argument. cbn [arg_min arg_max].
    replace ((0 <=? v) && (v <=? 50)) with false; [reflexivity|].
    symmetry. apply andb_false_iff.
    destruct Hv; [left | right]; apply Z.leb_gt; lia.
  - intros v Hv. unfold run, DenoisingFunctor. cbn [snd extent get_option_value].
    apply Z.quot_div_nonneg; lia.
Qed.

(** C6.  The validation of the statement is missing from the code.  The
    size 0, which is not positive, passes the range declared for the
    option; [run] opens the input, creates the output and builds a
    functor whose matrix has no column, and the loader then writes the
    centre's samples to column 0 of it, outside of the matrix.  The size
    4, which is not odd, passes as well: the extent is 2, the matrix has
    64 columns, the loops cover 125 offsets, and on the middle voxel of a
    volume of 5 x 5 x 5 the loader leaves the matrix. *)
Theorem size_is_not_validated :
  command one_voxel (Some 0) =
  Some ([opened_input; created_output], DenoisingFunctor one_voxel 0) /\
  n (DenoisingFunctor one_voxel 0) = 0%nat /\
  in_volume (vol one_voxel) (cursor one_voxel) = true /\
  load_data (DenoisingFunctor one_voxel 0) one_voxel = None /\
  command cube5 (Some 4) =
  Some ([opened_input; created_output], DenoisingFunctor cube5 4) /\
  Z.odd 4 = false /\
  extent (DenoisingFunctor cube5 4) = 2 /\
  n (DenoisingFunctor cube5 4) = 64%nat /\
  length (window_positions 2 2 2 2) = 125%nat /\
  load_data (DenoisingFunctor cube5 4) cube5 = None.
Proof.
  split; [reflexivity|]. split; [reflexivity|]. split; [reflexivity|].
  split; [reflexivity|]. split; [reflexivity|]. split; [reflexivity|].
  split; [reflexivity|]. split; [reflexivity|].
  split; [vm_compute; reflexivity|].
  vm_compute. reflexivity.
Qed.

End OptionsFacts.

(* ===================================================================== *)
(** * Properties of the thread count and of the backend *)
(* ===================================================================== *)

Module ThreadFacts.

Import String Thread.
Local Open Scope N_scope.

(** A call that finds nothing in the cache returns the value of the first
    source present and stores it. *)
Lemma number_of_threads_fresh (src : Sources) :
  number_of_threads src 0 =
  (first_source src,
   match first_source src with Ok v => v | Exception => 0 end).
Proof.
  unfold number_of_threads, first_source. cbn [N.eqb negb].
  destruct (opt_nthreads src) as [v|]; [reflexivity|].
  destruct (env_nthreads src) as [text|]; [|reflexivity].
  destruct (to text) as [v|]; reflexivity.
Qed.

(** C4, as the code has it.  With nothing cached, the sources are
    consulted in the order command line, environment, configuration (the
    hardware concurrency when the configuration has no entry), and the
    first one present decides: a value on the command line is used
    whatever it is, a text in the environment is parsed as an unsigned
    integer or fails the call.  The value goes out unchanged, so it is at
    least 1 exactly when the deciding source gave a non-zero value; a call
    that finds a value in the cache returns it, and it is at least 1. *)
Theorem number_of_threads_order (src : Sources) :
  fst (number_of_threads src 0) = first_source src /\
  (forall v, opt_nthreads src = Some v ->
             number_of_threads src 0 = (Ok v, v)) /\
  (forall text, opt_nthreads src = None -> env_nthreads src = Some text ->
                fst (number_of_threads src 0) =
                match to text with Some v => Ok v | None => Exception end) /\
  (opt_nthreads src = None -> env_nthreads src = None ->
   number_of_threads src 0 =
   (Ok (to_size_t (get_int (config_nthreads src) (hardware_concurrency src))),
    to_size_t (get_int (config_nthreads src) (hardware_concurrency src)))) /\
  (forall v cache, number_of_threads src 0 = (Ok v, cache) ->
                   cache = v /\ (1 <= v <-> first_source src <> Ok 0)) /\
  (forall cache, cache <> 0 ->
                 number_of_threads src cache = (Ok cache, cache) /\ 1 <= cache).
Proof.
  rewrite number_of_threads_fresh.
  split; [reflexivity|]. split; [|split; [|split; [|split]]].
  - intros v Hopt. unfold first_source. rewrite Hopt. reflexivity.
  - intros text Hopt Henv. unfold first_source. rewrite Hopt, Henv.
    cbn [fst]. destruct (to text); reflexivity.
  - intros Hopt Henv. unfold first_source. rewrite Hopt, Henv. reflexivity.
  - intros v cache H. injection H as Hfirst Hcache.
    rewrite Hfirst in Hcache. subst cache. rewrite Hfirst.
    split; [reflexivity|]. split.
    + intros Hv E. injection E as E. lia.
    + intros Hne. destruct (N.eq_dec v 0) as [E|E]; [|lia].
      exfalso. apply Hne. rewrite E. reflexivity.
  - intros cache Hc. split; [|lia].
    unfold number_of_threads.
    replace (cache =? 0) with false by (symmetry; apply N.eqb_neq; assumption).
    reflexivity.
Qed.

(** C4 as stated fails: a 0 on the command line is used although it is not
    positive (the environment, which says 4, is not consulted), and the
    value that goes out is 0, below 1. *)
Lemma number_of_threads_zero :
  opt_nthreads zero_on_command_line = Some 0 /\
  to "4"%string = Some 4 /\
  fst (number_of_threads zero_on_command_line 0) = Ok 0 /\
  fst (number_of_threads zero_on_command_line 0) <> Ok 4 /\
  ~ (forall v, fst (number_of_threads zero_on_command_line 0) = Ok v -> 1 <= v).
Proof.
  repeat split; try discriminate.
  intros H. specialize (H 0 eq_refl). lia.
Qed.

(** C5, as the code has it.  Once a call has resolved a non-zero value,
    every later call returns that value from the cache, whatever the
    command line, the environment and the configuration then are. *)
Theorem number_of_threads_cached
        (src1 src2 : Sources) (cache cache' v : size_t) :
  number_of_threads src1 cache = (Ok v, cache') ->
  v <> 0 ->
  number_of_threads src2 cache' = (Ok v, cache').
Proof.
  unfold number_of_threads. intros H Hv.
  assert (Hc : cache' = v).
  { destruct (negb (cache =? 0)); [congruence|].
    destruct (opt_nthreads src1); [congruence|].
    destruct (env_nthreads src1) as [text|]; [|congruence].
    destruct (to text); [congruence | discriminate]. }
  subst cache'.
  replace (v =? 0) with false by (symmetry; apply N.eqb_neq; assumption).
  reflexivity.
Qed.

Lemma number_of_threads_cached_witness :
  number_of_threads (env_says "4"%string) 0 = (Ok 4, 4) /\
  4 <> 0 /\
  number_of_threads zero_on_command_line 4 = (Ok 4, 4).
Proof.
  split; [reflexivity|]. split; [discriminate|].
  apply (number_of_threads_cached (env_says "4"%string) zero_on_command_line 0 4 4);
    [reflexivity | discriminate].
Defined.

(** C5 as stated fails when the resolved value is 0: the first call
    succeeds with 0, which the cache cannot tell from "not resolved", so
    the second call consults the environment again and returns what it
    says by then. *)
Lemma number_of_threads_zero_not_cached :
  number_of_threads (env_says "0"%string) 0 = (Ok 0, 0) /\
  number_of_threads (env_says "4"%string) 0 = (Ok 4, 4) /\
  fst (number_of_threads (env_says "4"%string)
                         (snd (number_of_threads (env_says "0"%string) 0)))
  <> fst (number_of_threads (env_says "0"%string) 0).
Proof.
  repeat split. discriminate.
Qed.

Local Close Scope N_scope.
Local Open Scope nat_scope.

(** *** The backend *)

Lemma acquire_live (s : Process) (c : nat) :
  backend s = Some c -> acquire s = with_backend s (Some (S c)).
Proof. intros H. unfold acquire. rewrite H. cbn. now rewrite H. Qed.

Lemma release_shared (s : Process) (c : nat) :
  backend s = Some (S (S c)) -> release s = with_backend s (Some (S c)).
Proof. intros H. unfold release. rewrite H. reflexivity. Qed.

Lemma with_backend_twice (s : Process) (a b : option nat) :
  with_backend (with_backend s a) b = with_backend s b.
Proof. reflexivity. Qed.

Lemma acquire_more (k : nat) :
  forall s c,
    Nat.iter k acquire (with_backend s (Some c)) = with_backend s (Some (k + c)).
Proof.
  induction k; intros s c; [reflexivity|].
  rewrite Nat.iter_succ, IHk.
  rewrite (acquire_live _ (k + c)) by reflexivity.
  apply with_backend_twice.
Qed.

Lemma release_more (k : nat) :
  forall s c,
    Nat.iter k release (with_backend s (Some (k + S c))) =
    with_backend s (Some (S c)).
Proof.
  induction k; intros s c; [reflexivity|].
  rewrite Nat.iter_succ_r.
  rewrite (release_shared _ (k + c)) by (cbn; f_equal; lia).
  rewrite with_backend_twice.
  replace (S (k + c)) with (k + S c)%nat by lia.
  apply IHk.
Qed.

(** C8.  The first acquisition installs the two mutex-protected wrappers
    and records the functions that were installed before; the release of
    the last reference puts these back.  So any number of acquisitions
    followed by as many releases leaves [print] and [report_to_user_func]
    as they were. *)
Theorem backend_round_trip (s : Process) (k : nat) :
  backend s = None ->
  let s1 := acquire s in
  print s1 = thread_print_func /\
  report_to_user_func s1 = thread_report_to_user_func /\
  previous_print_func s1 = print s /\
  previous_report_to_user_func s1 = report_to_user_func s /\
  backend s1 = Some 1%nat /\
  print (release s1) = print s /\
  report_to_user_func (release s1) = report_to_user_func s /\
  backend (release s1) = None /\
  print (Nat.iter (S k) release (Nat.iter (S k) acquire s)) = print s /\
  report_to_user_func (Nat.iter (S k) release (Nat.iter (S k) acquire s)) =
  report_to_user_func s /\
  backend (Nat.iter (S k) release (Nat.iter (S k) acquire s)) = None.
Proof.
  intros Hb s1.
  assert (H1 : s1 = with_backend (Backend_ctor s) (Some 1%nat)).
  { unfold s1, acquire. rewrite Hb. reflexivity. }
  assert (Hk : Nat.iter (S k) release (Nat.iter (S k) acquire s) = release s1).
  { rewrite (Nat.iter_succ_r k _ acquire s). fold s1. rewrite H1.
    rewrite acquire_more, (Nat.iter_succ k _ release).
    rewrite (release_more k _ 0). reflexivity. }
  rewrite Hk, H1. cbn. repeat split.
Qed.

Lemma backend_round_trip_witness :
  backend (startup (print_user 1) (report_user 2)) = None /\
  print (release (acquire (startup (print_user 1) (report_user 2)))) = print_user 1 /\
  report_to_user_func (release (acquire (startup (print_user 1) (report_user 2)))) =
  report_user 2.
Proof.
  split; [reflexivity|].
  destruct (backend_round_trip (startup (print_user 1) (report_user 2)) 0 eq_refl)
    as (_ & _ & _ & _ & _ & Hp & Hr & _).
  split; [exact Hp | exact Hr].
Defined.

End ThreadFacts.

(* ===================================================================== *)
(** * Further properties of the window loader *)
(* ===================================================================== *)

Module WindowLayoutFacts.

Import Window WindowLayout WindowFacts.

Lemma used_functor_wf : wf_functor used_functor.
Proof.
  unfold wf_functor. vm_compute.
  split; [discriminate|]. split; [reflexivity|]. split; [reflexivity|].
  repeat constructor.
Defined.

(** X1.  What [load_data] leaves in the matrix, the column index and the
    trace does not depend on what the matrix held before, only on its
    shape: nothing of the previous voxel survives the call. *)
Theorem load_data_forgets_previous_matrix (f f' : Functor) (dwi : Image) :
  wf_functor f -> wf_functor f' ->
  extent f' = extent f -> m f' = m f ->
  exists st st',
    load_data f dwi = Some st /\
    load_data f' dwi = Some st' /\
    st' = st.
Proof.
  intros Hwf Hwf' He Hm.
  destruct (load_data_result f dwi Hwf) as (st & Hl & Hd & HX & Hk & HR).
  destruct (load_data_result f' dwi Hwf') as (st' & Hl' & Hd' & HX' & Hk' & HR').
  exists st, st'. split; [assumption|]. split; [assumption|].
  assert (Hn : n f' = n f).
  { destruct Hwf as (_ & _ & Hn & _). destruct Hwf' as (_ & _ & Hn' & _).
    rewrite Hn, Hn', He. reflexivity. }
  rewrite He, Hm in HX'. rewrite He in HR'. rewrite Hn in Hk'.
  destruct st as [d X1 k1 R1]. destruct st' as [d' X2 k2 R2].
  cbn [ls_dwi ls_X ls_k ls_reads] in *. congruence.
Qed.

Lemma load_data_forgets_previous_matrix_witness :
  wf_functor (DenoisingFunctor one_voxel 3) /\
  wf_functor used_functor /\
  X used_functor <> X (DenoisingFunctor one_voxel 3) /\
  load_data used_functor one_voxel =
  load_data (DenoisingFunctor one_voxel 3) one_voxel.
Proof.
  split; [exact one_voxel_wf|]. split; [exact used_functor_wf|].
  split; [discriminate|].
  destruct (load_data_forgets_previous_matrix
              (DenoisingFunctor one_voxel 3) used_functor one_voxel
              one_voxel_wf used_functor_wf eq_refl eq_refl)
    as (st & st' & H1 & H2 & H3).
  rewrite H1, H2, H3. reflexivity.
Defined.

Lemma window_inside_all (dwi : Image) (e : Z) :
  0 <= e -> window_inside dwi e ->
  forall p,
    In p (window_positions e (index0 dwi) (index1 dwi) (index2 dwi)) ->
    in_volume (vol dwi) p = true.
Proof.
  intros He (H0 & H0' & H1 & H1' & H2 & H2') [[x y] z] Hin.
  apply In_window_positions in Hin; [|assumption].
  unfold in_volume, in_axis.
  repeat (apply andb_true_iff; split);
    try (apply Z.leb_le; lia); apply Z.ltb_lt; lia.
Qed.

Lemma filter_all_true {A : Type} (g : A -> bool) (l : list A) :
  (forall a, In a l -> g a = true) -> filter g l = l.
Proof.
  induction l as [|a l IH]; intros H; simpl; [reflexivity|].
  rewrite (H a) by (left; reflexivity).
  f_equal. apply IH. intros b Hb. apply H. right. assumption.
Qed.

(** X2.  When the whole window lies within the volume, every column of
    the matrix receives the samples of its position: all [n] positions
    are read, in the order of the scan, and no column is left at zero by
    the boundary rule. *)
Theorem load_data_inside (f : Functor) (dwi : Image) :
  wf_functor f ->
  window_inside dwi (extent f) ->
  let ps := window_positions (extent f) (index0 dwi) (index1 dwi) (index2 dwi) in
  exists st,
    load_data f dwi = Some st /\
    ls_X st = map (samples (vol dwi)) ps /\
    ls_reads st = rev ps /\
    length (ls_reads st) = n f.
Proof.
  intros Hwf Hin ps.
  destruct (load_data_result f dwi Hwf) as (st & Hl & _ & HX & _ & HR).
  fold ps in HX, HR.
  destruct Hwf as (He & HXn & Hn & HF).
  pose proof (window_inside_all dwi (extent f) He Hin) as Hall. fold ps in Hall.
  exists st. split; [assumption|]. split; [|split].
  - rewrite HX. apply map_ext_in. intros [[x y] z] Hp.
    unfold window_col, samples. rewrite (Hall _ Hp). reflexivity.
  - rewrite HR, filter_all_true by assumption. reflexivity.
  - rewrite HR, filter_all_true by assumption.
    rewrite length_rev. unfold ps. rewrite length_window_positions. congruence.
Qed.

Lemma cube3_wf : wf_functor (DenoisingFunctor cube3 3).
Proof.
  unfold wf_functor. vm_compute.
  split; [discriminate|]. split; [reflexivity|]. split; [reflexivity|].
  repeat constructor.
Defined.

Lemma cube3_inside : window_inside cube3 (extent (DenoisingFunctor cube3 3)).
Proof. vm_compute. repeat split; discriminate. Defined.

Lemma load_data_inside_witness :
  wf_functor (DenoisingFunctor cube3 3) /\
  window_inside cube3 (extent (DenoisingFunctor cube3 3)) /\
  exists st,
    load_data (DenoisingFunctor cube3 3) cube3 = Some st /\
    length (ls_reads st) = 27%nat.
Proof.
  split; [exact cube3_wf|]. split; [exact cube3_inside|].
  destruct (load_data_inside (DenoisingFunctor cube3 3) cube3 cube3_wf cube3_inside)
    as (st & H1 & _ & _ & H4).
  exists st. split; [exact H1 | exact H4].
Defined.

(** *** The column of an offset *)

Lemma nth_zrange (cnt : nat) :
  forall lo i d, (i < cnt)%nat -> nth i (zrange lo cnt) d = lo + Z.of_nat i.
Proof.
  induction cnt; intros lo i d Hi; [lia|].
  destruct i as [|i]; cbn [zrange nth]; [lia|].
  rewrite IHcnt by lia. lia.
Qed.

Lemma nth_flat_map_const {A B : Type} (g : A -> list B) (c : nat) (a0 : A) (d : B) :
  (forall a, length (g a) = c) ->
  forall l i j,
    (i < length l)%nat -> (j < c)%nat ->
    nth (i * c + j) (flat_map g l) d = nth j (g (nth i l a0)) d.
Proof.
  intros Hg. induction l as [|a l IH]; intros i j Hi Hj; [simpl in Hi; lia|].
  cbn [flat_map]. destruct i as [|i].
  - cbn [Nat.mul Nat.add nth]. apply app_nth1. rewrite Hg. assumption.
  - rewrite app_nth2 by (rewrite Hg; simpl; lia).
    rewrite Hg. replace (S i * c + j - c)%nat with (i * c + j)%nat by (simpl; lia).
    cbn [nth]. apply IH; [simpl in Hi; lia | assumption].
Qed.

Lemma nth_map_in {A B : Type} (g : A -> B) (l : list A) (i : nat) (d : B) (a0 : A) :
  (i < length l)%nat -> nth i (map g l) d = g (nth i l a0).
Proof.
  intros Hi. rewrite (nth_indep _ d (g a0)) by (rewrite length_map; assumption).
  apply map_nth.
Qed.

Lemma window_position_index (e p0 p1 p2 : Z) (ix iy iz : nat) (d : position) :
  0 <= e ->
  (ix < trip e)%nat -> (iy < trip e)%nat -> (iz < trip e)%nat ->
  nth (column_of (trip e) ix iy iz) (window_positions e p0 p1 p2) d =
  (p0 - e + Z.of_nat ix, p1 - e + Z.of_nat iy, p2 - e + Z.of_nat iz).
Proof.
  intros He Hx Hy Hz. unfold column_of, window_positions.
  set (t := trip e) in *.
  replace ((iz * t + iy) * t + ix)%nat with (iz * (t * t) + (iy * t + ix))%nat by lia.
  rewrite (nth_flat_map_const _ (t * t)%nat 0).
  - rewrite (nth_flat_map_const _ t 0).
    + rewrite !nth_zrange by assumption.
      rewrite (nth_map_in _ _ _ _ 0) by (rewrite length_zrange; assumption).
      rewrite nth_zrange by assumption. reflexivity.
    + intros y. now rewrite length_map, length_zrange.
    + rewrite length_zrange. assumption.
    + assumption.
  - intros z. rewrite (length_flat_map_const _ t).
    + now rewrite length_zrange.
    + intros y. now rewrite length_map, length_zrange.
  - rewrite length_zrange. assumption.
  - nia.
Qed.

Lemma column_of_lt (t ix iy iz : nat) :
  (ix < t)%nat -> (iy < t)%nat -> (iz < t)%nat ->
  (column_of t ix iy iz < t * t * t)%nat.
Proof. unfold column_of. nia. Qed.

(** X3.  The column of the matrix that belongs to the offset number [ix]
    along axis 0, [iy] along axis 1 and [iz] along axis 2 is column
    [(iz * t + iy) * t + ix], where [t = 2 * extent + 1]: axis 0 varies
    fastest.  After [load_data] that column holds the samples of the
    position [centre - extent + (ix, iy, iz)], or zeros when the position
    is outside of the volume. *)
Theorem load_data_column_of (f : Functor) (dwi : Image) (ix iy iz : nat) :
  wf_functor f ->
  (ix < trip (extent f))%nat ->
  (iy < trip (extent f))%nat ->
  (iz < trip (extent f))%nat ->
  (column_of (trip (extent f)) ix iy iz < n f)%nat /\
  exists st,
    load_data f dwi = Some st /\
    nth (column_of (trip (extent f)) ix iy iz) (ls_X st) [] =
    window_col (vol dwi) (m f)
               (index0 dwi - extent f + Z.of_nat ix,
                index1 dwi - extent f + Z.of_nat iy,
                index2 dwi - extent f + Z.of_nat iz).
Proof.
  intros Hwf Hx Hy Hz.
  destruct (load_data_result f dwi Hwf) as (st & Hl & _ & HX & _).
  destruct Hwf as (He & HXn & Hn & HF).
  pose proof (column_of_lt _ _ _ _ Hx Hy Hz) as Hlt.
  split; [rewrite Hn; exact Hlt|].
  exists st. split; [assumption|].
  rewrite HX.
  rewrite (nth_map_in _ _ _ _ (0, 0, 0))
    by (rewrite length_window_positions; exact Hlt).
  rewrite window_position_index by assumption.
  reflexivity.
Qed.

Lemma load_data_column_of_witness :
  wf_functor (DenoisingFunctor cube3 3) /\
  exists st,
    load_data (DenoisingFunctor cube3 3) cube3 = Some st /\
    nth 5 (ls_X st) [] = [F32.of_Z 5].
Proof.
  split; [exact cube3_wf|].
  destruct (load_data_column_of (DenoisingFunctor cube3 3) cube3 2 1 0 cube3_wf)
    as (_ & st & H1 & H2); [vm_compute; lia | vm_compute; lia | vm_compute; lia |].
  exists st. split; [exact H1 | exact H2].
Defined.

(** *** Sizes that do not fit the matrix *)

Lemma length_replace_nth (k : nat) (c : column) :
  forall X, length (replace_nth k c X) = length X.
Proof.
  induction k; intros [|c0 X]; simpl; try reflexivity.
  now rewrite IHk.
Qed.

(** A scan over positions inside the volume that is longer than the
    columns left in the matrix runs into a column access out of range. *)
Lemma scan_overflow (v : Volume) (ps : list position) :
  forall X k R,
    (forall p, In p ps -> in_volume v p = true) ->
    0 <= k <= Z.of_nat (length X) ->
    Z.of_nat (length X) < k + Z.of_nat (length ps) ->
    scan v ps (X, k, R) = None.
Proof.
  induction ps as [|[[x y] z] ps IH]; intros X k R Hall Hk Hlen.
  - simpl in Hlen. lia.
  - cbn [scan visit_at]. rewrite (Hall (x, y, z)) by (left; reflexivity).
    unfold set_col.
    destruct ((0 <=? k) && (k <? Z.of_nat (length X))) eqn:E; [|reflexivity].
    apply andb_true_iff in E. destruct E as (_ & E). apply Z.ltb_lt in E.
    apply IH.
    + intros p Hp. apply Hall. right. assumption.
    + rewrite length_replace_nth. lia.
    + rewrite length_replace_nth. cbn [length] in Hlen. lia.
Qed.

(** X4.  An even window size does not fit the matrix: the loops cover
    [(size + 1)^3] offsets while the matrix has [size^3] columns, and on a
    voxel whose window lies within the volume the loader runs into a
    column access outside of the matrix.  The size 0, which the option
    admits, is such a size. *)
Theorem load_data_even_size_overflows (dwi : Image) (size : Z) :
  0 <= size -> Z.even size = true ->
  window_inside dwi (extent (DenoisingFunctor dwi size)) ->
  Z.of_nat (n (DenoisingFunctor dwi size)) = size * size * size /\
  Z.of_nat (length (window_positions (extent (DenoisingFunctor dwi size))
                                     (index0 dwi) (index1 dwi) (index2 dwi)))
  = (size + 1) * (size + 1) * (size + 1) /\
  load_data (DenoisingFunctor dwi size) dwi = None.
Proof.
  intros Hpos Heven Hin.
  apply Z.even_spec in Heven. destruct Heven as [h Hh].
  assert (He : extent (DenoisingFunctor dwi size) = h).
  { unfold DenoisingFunctor. cbn [extent]. subst size.
    symmetry. apply Z.quot_unique with 0; lia. }
  rewrite He in *.
  assert (Hh0 : 0 <= h) by lia.
  assert (Hn : Z.of_nat (n (DenoisingFunctor dwi size)) = size * size * size).
  { unfold DenoisingFunctor. cbn [n]. rewrite Z2Nat.id; [reflexivity|]. nia. }
  assert (Hps : Z.of_nat (length (window_positions h (index0 dwi) (index1 dwi) (index2 dwi)))
                = (size + 1) * (size + 1) * (size + 1)).
  { rewrite length_window_positions, !Nat2Z.inj_mul, trip_spec by assumption.
    subst size. reflexivity. }
  split; [exact Hn|]. split; [exact Hps|].
  pose proof (load_data_scan (DenoisingFunctor dwi size) dwi) as H.
  rewrite He in H. specialize (H Hh0).
  rewrite scan_overflow in H.
  - unfold agrees in H. destruct (load_data _ dwi); [contradiction | reflexivity].
  - apply window_inside_all; assumption.
  - lia.
  - rewrite length_setZero. unfold DenoisingFunctor at 1. cbn [X].
    rewrite repeat_length, Z2Nat.id, Hps by nia. nia.
Qed.

Lemma load_data_even_size_overflows_witness :
  0 <= 0 /\ Z.even 0 = true /\
  window_inside one_voxel (extent (DenoisingFunctor one_voxel 0)) /\
  load_data (DenoisingFunctor one_voxel 0) one_voxel = None.
Proof.
  split; [lia|]. split; [reflexivity|].
  assert (Hin : window_inside one_voxel (extent (DenoisingFunctor one_voxel 0)))
    by (vm_compute; repeat split; discriminate).
  split; [exact Hin|].
  apply (load_data_even_size_overflows one_voxel 0 ltac:(lia) eq_refl Hin).
Defined.

End WindowLayoutFacts.

(* ===================================================================== *)
(** * Further properties of the spectral stage *)
(* ===================================================================== *)

Module SpectrumFacts.

Import Denoise DenoiseFacts.
Local Open Scope nat_scope.

Lemma length_set (i : nat) (x : float) :
  forall v, length (set i x v) = length v.
Proof.
  induction i; intros [|y v]; simpl; try reflexivity. now rewrite IHi.
Qed.

Lemma get_set_eq (i : nat) (x : float) :
  forall v, i < length v -> get (set i x v) i = x.
Proof.
  unfold get. induction i; intros [|y v] Hi; simpl in *; try lia; [reflexivity|].
  apply IHi. lia.
Qed.

Lemma get_set_neq (i : nat) (x : float) :
  forall v j, i <> j -> get (set i x v) j = get v j.
Proof.
  unfold get. induction i; intros [|y v] j Hj; simpl; try reflexivity.
  - destruct j; [contradiction | reflexivity].
  - destruct j; [reflexivity|]. apply IHi. lia.
Qed.

(** The loop of the cumulative spectrum, from index [i] downwards: the
    entries from [i] upwards are kept, and each entry below [i] is the
    sum of the entry above it and of the eigenvalue at its index. *)
Lemma clam_loop_spec (r : nat) (lam : vector) (i : nat) :
  forall cs clam,
    length clam = r -> i <= r ->
    let c := clam_loop i lam cs clam in
    length c = r /\
    (forall j, i <= j -> get c j = get clam j) /\
    (forall j, S j < i -> get c j = F32.add (get c (S j)) (get lam j)) /\
    (0 < i -> get c (i - 1) = F32.add cs (get lam (i - 1))).
Proof.
  induction i as [|i IH]; intros cs clam Hlen Hi; cbn [clam_loop].
  - repeat split; try assumption; intros; lia.
  - cbv zeta.
    set (cs' := F32.add cs (get lam i)).
    destruct (IH cs' (set i cs' clam)) as (Hl & Hkeep & Hrec & Hlast);
      [rewrite length_set; assumption | lia |].
    cbv zeta in Hl, Hkeep, Hrec, Hlast.
    set (c := clam_loop i lam cs' (set i cs' clam)) in *.
    assert (Hci : get c i = cs').
    { rewrite Hkeep by lia. apply get_set_eq. lia. }
    split; [assumption|]. split; [|split].
    + intros j Hj. rewrite Hkeep by lia. apply get_set_neq. lia.
    + intros j Hj. destruct (Nat.eq_dec (S j) i) as [E|E].
      * subst i. rewrite Hci.
        replace j with (S j - 1) at 1 2 by lia.
        rewrite Hlast by lia. replace (S j - 1) with j by lia. reflexivity.
      * apply Hrec. lia.
    + intros _. replace (S i - 1) with i by lia. exact Hci.
Qed.

(** X5.  The cumulative spectrum is built from the last eigenvalue
    backwards, in [float]: it has [r] entries, the last one is
    [0 + lam[r-1]], and every other entry is the entry after it plus the
    eigenvalue at its own index. *)
Theorem cumulative_suffix_sums (r : nat) (lam : vector) :
  let clam := cumulative r lam in
  length clam = r /\
  (0 < r -> get clam (r - 1) = F32.add F32.zero (get lam (r - 1))) /\
  (forall j, S j < r -> get clam j = F32.add (get clam (S j)) (get lam j)).
Proof.
  unfold cumulative.
  destruct (clam_loop_spec r lam r F32.zero (repeat F32.zero r))
    as (Hl & _ & Hrec & Hlast); [apply repeat_length | lia |].
  cbv zeta in *. repeat split; assumption.
Qed.

(** The spectral stage in closed form. *)
Lemma spectral_stage_closed (m n r : nat) (s : vector) (sigsq1_0 : float) :
  let lam := eigenvalues n s in
  let clam := cumulative r lam in
  let p := first_index (noise_at m n r lam clam) 0 r in
  spectral_stage m n r s sigsq1_0 =
  mkSpectrum p (tail_setZero s (size_t_sub r p))
             (if p =? r then F32.NaN else F32.sqrt (sigsq1 m n r clam p)).
Proof.
  intros lam clam p.
  pose proof (spectral_stage_p m n r s sigsq1_0) as Hp.
  pose proof (spectral_stage_sigma m n r s sigsq1_0) as Hsig.
  pose proof (spectral_stage_s m n r s sigsq1_0) as Hs.
  cbv zeta in Hsig, Hs. fold lam clam in Hp, Hsig. fold p in Hp.
  destruct (spectral_stage m n r s sigsq1_0) as [p' s' sig'].
  cbn [sp_p sp_s sp_sigma] in *. subst p'. rewrite Hs, Hsig. reflexivity.
Qed.

(** X6.  The local [sigsq1] is declared without a value, and the stage
    never depends on what it holds: the selected [p], the truncated
    singular values and [sigma] are the same for any two such values.  In
    particular [sigma] is NaN, not a stale number, when the loop body
    never runs ([r = 0]). *)
Theorem spectral_stage_ignores_uninitialised
        (m n r : nat) (s : vector) (a b : float) :
  spectral_stage m n r s a = spectral_stage m n r s b /\
  (r = 0 -> sp_sigma (spectral_stage m n r s a) = F32.NaN).
Proof.
  split.
  - rewrite !spectral_stage_closed. reflexivity.
  - intros ->. reflexivity.
Qed.

(** *** The test at the last index *)

Lemma sub_self (x : float) : F32.sub x x = F32.zero \/ F32.sub x x = F32.NaN.
Proof.
  destruct x as [sx|sx| |sx mx ex]; cbn.
  - left. destruct sx; reflexivity.
  - right. destruct sx; reflexivity.
  - right. reflexivity.
  - left. unfold F32.sub, SFsub. rewrite Z.sub_diag. reflexivity.
Qed.

Lemma div_zero_zero_or_NaN (sg : bool) (y : float) :
  (exists sg', F32.div (S754_zero sg) y = S754_zero sg') \/
  F32.div (S754_zero sg) y = F32.NaN.
Proof.
  destruct y as [sy|sy| |sy my ey]; cbn.
  - right. reflexivity.
  - left. eexists. reflexivity.
  - right. reflexivity.
  - left. eexists. reflexivity.
Qed.

Lemma ltb_NaN_l (y : float) : F32.ltb F32.NaN y = false.
Proof. reflexivity. Qed.

Lemma ltb_zero_sign (sg : bool) (y : float) :
  F32.ltb (S754_zero sg) y = F32.ltb F32.zero y.
Proof. destruct y; reflexivity. Qed.

Lemma first_index_le (test : nat -> bool) (cnt from q : nat) :
  from <= q < from + cnt -> test q = true -> first_index test from cnt <= q.
Proof.
  intros Hq Ht.
  destruct (Nat.le_gt_cases (first_index test from cnt) q) as [H|H]; [assumption|].
  rewrite (first_index_before test cnt from q) in Ht by lia. discriminate.
Qed.

(** X7.  At the last index [r-1] the numerator of [sigsq2] is
    [lam[r-1] - lam[r-1]], so [sigsq2] is a zero, or NaN: the test of the
    loop holds there exactly when [sigsq2] is not NaN and [sigsq1] is
    positive.  When it holds the loop stops at or before [r-1], and
    [sigma] is the square root of an estimate, not the NaN of an
    exhausted loop. *)
Theorem last_index_test (m n r : nat) (s : vector) (sigsq1_0 : float) :
  0 < r -> (Z.of_nat r < 2 ^ 64)%Z ->
  let lam := eigenvalues n s in
  let clam := cumulative r lam in
  let sp := spectral_stage m n r s sigsq1_0 in
  ((sigsq2 m n r lam (r - 1) = F32.NaN /\
    noise_at m n r lam clam (r - 1) = false) \/
   (exists sg, sigsq2 m n r lam (r - 1) = S754_zero sg /\
               noise_at m n r lam clam (r - 1) =
               F32.ltb F32.zero (sigsq1 m n r clam (r - 1)))) /\
  (noise_at m n r lam clam (r - 1) = true ->
   sp_p sp < r /\
   sp_sigma sp = F32.sqrt (sigsq1 m n r clam (sp_p sp))).
Proof.
  intros Hr0 Hr lam clam sp. split.
  - unfold noise_at, sigsq2.
    rewrite (size_t_sub_le r 1) by lia.
    destruct (sub_self (get lam (r - 1))) as [E|E]; rewrite E.
    + replace (F32.div F32.zero (F32.of_Z 4)) with F32.zero by reflexivity.
      destruct (div_zero_zero_or_NaN false (F32.sqrt (gam m n (r - 1))))
        as [[sg E']|E']; unfold F32.zero; rewrite E'.
      * right. exists sg. split; [reflexivity | apply ltb_zero_sign].
      * left. split; reflexivity.
    + left. split; reflexivity.
  - intros Ht.
    pose proof (spectral_stage_p m n r s sigsq1_0) as Hp.
    pose proof (spectral_stage_sigma m n r s sigsq1_0) as Hsig.
    cbv zeta in Hsig. fold lam clam sp in Hp, Hsig.
    assert (Hlt : sp_p sp < r).
    { rewrite Hp.
      pose proof (first_index_le (noise_at m n r lam clam) r 0 (r - 1)) as H.
      specialize (H ltac:(lia) Ht). lia. }
    split; [assumption|].
    rewrite Hsig.
    replace (sp_p sp =? r) with false by (symmetry; apply Nat.eqb_neq; lia).
    reflexivity.
Qed.

Lemma last_index_test_witness :
  0 < 3 /\ (Z.of_nat 3 < 2 ^ 64)%Z /\
  sp_p (spectral_stage 3 27 3 [F32.of_Z 3; F32.of_Z 2; F32.of_Z 1] F32.NaN) < 3.
Proof.
  split; [lia|]. split; [reflexivity|].
  destruct (last_index_test 3 27 3 [F32.of_Z 3; F32.of_Z 2; F32.of_Z 1] F32.NaN
                            ltac:(lia) eq_refl) as (_ & H).
  apply H. vm_compute. reflexivity.
Defined.

End SpectrumFacts.

(* ===================================================================== *)
(** * Further properties of the thread count and of the backend *)
(* ===================================================================== *)

Module ThreadCallsFacts.

Import String Thread ThreadCalls ThreadFacts.

(** The state after [S k] acquisitions and [j <= k] releases: the backend
    built on the first acquisition, with [S k - j] references. *)
Lemma held_state (s : Process) (k j : nat) :
  backend s = None -> (j <= k)%nat ->
  Nat.iter j release (Nat.iter (S k) acquire s) =
  with_backend (Backend_ctor s) (Some (S k - j)%nat).
Proof.
  intros Hb Hj.
  rewrite (Nat.iter_succ_r k _ acquire s).
  assert (H1 : acquire s = with_backend (Backend_ctor s) (Some 1%nat)).
  { unfold acquire. rewrite Hb. reflexivity. }
  rewrite H1, acquire_more.
  replace (k + 1)%nat with (j + S (k - j))%nat by lia.
  rewrite release_more. f_equal. f_equal. lia.
Qed.

(** X8.  While the guard is held, whatever the number of references, a
    message sent through [print] or [report_to_user_func] goes through
    the wrapper to the function that was installed before the first
    acquisition, and it does so again once every reference is released:
    the guard never changes where a message ends up. *)
Theorem guarded_calls_reach_original
        (s : Process) (p r : nat) (k j : nat) (msg : string) (type : Z) :
  backend s = None ->
  print s = print_user p ->
  report_to_user_func s = report_user r ->
  (j <= S k)%nat ->
  let s' := Nat.iter j release (Nat.iter (S k) acquire s) in
  call_print s' msg = Printed p msg /\
  call_report s' msg type = Reported r msg type /\
  ((j <= k)%nat -> print s' = thread_print_func /\
                   report_to_user_func s' = thread_report_to_user_func).
Proof.
  intros Hb Hp Hr Hj s'.
  destruct (Nat.eq_dec j (S k)) as [E|E].
  - assert (Hs : s' = release (acquire s)).
    { unfold s'. subst j.
      rewrite (Nat.iter_succ k _ release), (held_state s k k Hb (Nat.le_refl k)).
      replace (S k - k)%nat with 1%nat by lia.
      unfold acquire. rewrite Hb. reflexivity. }
    rewrite Hs. unfold acquire. rewrite Hb. cbn.
    unfold call_print, call_report. cbn. rewrite Hp, Hr.
    repeat split; lia.
  - assert (Hs : s' = with_backend (Backend_ctor s) (Some (S k - j)%nat))
      by (apply held_state; [assumption | lia]).
    rewrite Hs. unfold call_print, call_report. cbn. rewrite Hp, Hr.
    repeat split.
Qed.

Lemma guarded_calls_reach_original_witness :
  backend (startup (print_user 1) (report_user 2)) = None /\
  call_print (release (acquire (acquire (startup (print_user 1) (report_user 2)))))
             "warning" = Printed 1 "warning".
Proof.
  split; [reflexivity|].
  destruct (guarded_calls_reach_original
              (startup (print_user 1) (report_user 2)) 1 2 1 1 "warning" 0
              eq_refl eq_refl eq_refl ltac:(lia)) as (H & _).
  exact H.
Defined.

Local Open Scope N_scope.

(** X9.  A call of [number_of_threads] fails in one situation only:
    nothing is cached, no thread count is given on the command line, and
    the environment holds a text that is not an unsigned integer.  The
    cache is then left as it was, so that the failure is not remembered;
    a value on the command line or a cached value keeps a malformed
    environment from being looked at. *)
Theorem number_of_threads_failure (src : Sources) (cache cache' : size_t) :
  number_of_threads src cache = (Exception, cache') <->
  cache = 0 /\ cache' = 0 /\
  opt_nthreads src = None /\
  exists text, env_nthreads src = Some text /\ to text = None.
Proof.
  unfold number_of_threads. split.
  - intros H. destruct (N.eq_dec cache 0) as [E|E].
    + subst cache. cbn [N.eqb negb] in H.
      destruct (opt_nthreads src) as [v|]; [discriminate|].
      destruct (env_nthreads src) as [text|]; [|discriminate].
      destruct (to text) as [v|] eqn:Et; [discriminate|].
      injection H as <-. repeat split. exists text. split; [reflexivity | assumption].
    + replace (cache =? 0) with false in H by (symmetry; apply N.eqb_neq; assumption).
      discriminate.
  - intros (-> & -> & Hopt & text & Henv & Ht).
    cbn [N.eqb negb]. rewrite Hopt, Henv, Ht. reflexivity.
Qed.

End ThreadCallsFacts.

(* ===================================================================== *)
(** * Properties of the image menu of the viewer *)
(* ===================================================================== *)

Module ViewerFacts.

Import Viewer.
Local Open Scope nat_scope.

Section CheckFrom.

Variable target : nat -> nat -> nat.
Variable l : list QAction.
Variable g : QActionGroup.

(** The loop stops at the index of the checked action, which is unique
    when no action occurs twice. *)
Lemma check_from_finds (a : QAction) (i : nat) :
  NoDup l -> i < length l -> nth i l 0 = a ->
  forall cnt n,
    n + cnt = length l -> n <= i ->
    check_from target cnt n (Some a) l g =
    setChecked (nth (target i (length l)) l 0) g.
Proof.
  intros Hnd Hi Ha. induction cnt; intros n Hn Hle; [lia|].
  cbn [check_from].
  replace (n <? length l) with true by (symmetry; apply Nat.ltb_lt; lia).
  unfold same. destruct (Nat.eqb_spec a (nth n l 0)) as [E|E].
  - assert (n = i); [|subst n; reflexivity].
    apply (proj1 (NoDup_nth l 0) Hnd); [lia | assumption | congruence].
  - apply IHcnt; [lia|].
    destruct (Nat.eq_dec n i) as [->|]; [congruence | lia].
Qed.

(** The loop changes nothing when no action of the list is the checked
    one. *)
Lemma check_from_misses (action : option QAction) :
  (forall a, action = Some a -> ~ In a l) ->
  forall cnt n, check_from target cnt n action l g = g.
Proof.
  intros Hmiss. induction cnt; intros n; cbn [check_from]; [reflexivity|].
  destruct (n <? length l) eqn:En; [|reflexivity].
  apply Nat.ltb_lt in En.
  destruct action as [a|]; cbn [same]; [|apply IHcnt].
  destruct (Nat.eqb_spec a (nth n l 0)) as [E|E]; [|apply IHcnt].
  exfalso. apply (Hmiss a eq_refl). rewrite E. apply nth_In. assumption.
Qed.

End CheckFrom.

Lemma next_image_at (g : QActionGroup) (i : nat) :
  NoDup (actions g) -> i < length (actions g) ->
  checkedAction g = Some (nth i (actions g) 0) ->
  next_image g =
  setChecked (nth ((i + 1) mod length (actions g)) (actions g) 0) g.
Proof.
  intros Hnd Hi Hc. unfold next_image. rewrite Hc.
  apply (check_from_finds (fun n size => (n + 1) mod size)
                          _ g _ i Hnd Hi eq_refl); lia.
Qed.

Lemma previous_image_at (g : QActionGroup) (i : nat) :
  NoDup (actions g) -> i < length (actions g) ->
  checkedAction g = Some (nth i (actions g) 0) ->
  previous_image g =
  setChecked (nth ((i + length (actions g) - 1) mod length (actions g))
                  (actions g) 0) g.
Proof.
  intros Hnd Hi Hc. unfold previous_image. rewrite Hc.
  apply (check_from_finds (fun n size => (n + size - 1) mod size)
                          _ g _ i Hnd Hi eq_refl); lia.
Qed.

Lemma checked_cases (g : QActionGroup) :
  (forall a, checkedAction g = Some a -> ~ In a (actions g)) \/
  (exists i, i < length (actions g) /\
             checkedAction g = Some (nth i (actions g) 0)).
Proof.
  destruct (checkedAction g) as [a|]; [|left; discriminate].
  destruct (in_dec Nat.eq_dec a (actions g)) as [Hin|Hout].
  - right. destruct (In_nth _ _ 0 Hin) as (i & Hi & E).
    exists i. split; [assumption | exact (f_equal Some (eq_sym E))].
  - left. intros b [= <-]. assumption.
Qed.

Lemma mod_next_prev (i s : nat) :
  i < s -> ((i + 1) mod s + s - 1) mod s = i.
Proof.
  intros Hi. destruct (Nat.eq_dec (i + 1) s) as [E|E].
  - rewrite E, Nat.Div0.mod_same. cbn [Nat.add].
    rewrite Nat.mod_small by lia. lia.
  - rewrite (Nat.mod_small (i + 1)) by lia.
    replace (i + 1 + s - 1) with (i + 1 * s) by lia.
    rewrite Nat.Div0.mod_add. apply Nat.mod_small. assumption.
Qed.

Lemma mod_prev_next (i s : nat) :
  i < s -> ((i + s - 1) mod s + 1) mod s = i.
Proof.
  intros Hi. destruct i as [|i].
  - cbn [Nat.add]. rewrite (Nat.mod_small (s - 1)) by lia.
    replace (s - 1 + 1) with s by lia. apply Nat.Div0.mod_same.
  - replace (S i + s - 1) with (i + 1 * s) by lia.
    rewrite Nat.Div0.mod_add, (Nat.mod_small i) by lia.
    rewrite Nat.mod_small by lia. lia.
Qed.

(** X10.  In a group in which no action occurs twice, [previous_image]
    undoes [next_image] and [next_image] undoes [previous_image],
    whatever is checked (also when nothing is, or when the group is
    empty); neither changes the list of actions. *)
Theorem next_previous_round_trip (g : QActionGroup) :
  NoDup (actions g) ->
  previous_image (next_image g) = g /\
  next_image (previous_image g) = g /\
  actions (next_image g) = actions g /\
  actions (previous_image g) = actions g.
Proof.
  intros Hnd. destruct (checked_cases g) as [Hmiss|(i & Hi & Hc)].
  - assert (Hn : next_image g = g) by (apply check_from_misses; assumption).
    assert (Hp : previous_image g = g) by (apply check_from_misses; assumption).
    rewrite Hn, Hp, Hn. repeat split.
  - pose proof (Nat.mod_upper_bound (i + 1) (length (actions g)) ltac:(lia)) as Hb1.
    pose proof (Nat.mod_upper_bound (i + length (actions g) - 1)
                                    (length (actions g)) ltac:(lia)) as Hb2.
    rewrite (next_image_at g i Hnd Hi Hc), (previous_image_at g i Hnd Hi Hc).
    split; [|split; [|split; reflexivity]].
    + rewrite (previous_image_at _ ((i + 1) mod length (actions g)));
        try assumption; [|reflexivity].
      cbn [setChecked actions]. rewrite mod_next_prev by assumption.
      destruct g as [l c]. cbn in *. rewrite Hc. reflexivity.
    + rewrite (next_image_at _ ((i + length (actions g) - 1) mod length (actions g)));
        try assumption; [|reflexivity].
      cbn [setChecked actions]. rewrite mod_prev_next by assumption.
      destruct g as [l c]. cbn in *. rewrite Hc. reflexivity.
Qed.

Lemma next_previous_round_trip_witness :
  NoDup [11; 12; 13] /\
  previous_image (next_image (mkGroup [11; 12; 13] (Some 13))) =
  mkGroup [11; 12; 13] (Some 13).
Proof.
  assert (Hnd : NoDup [11; 12; 13]).
  { repeat constructor; simpl; intros H;
      repeat (destruct H as [H|H]; [discriminate|]); exact H. }
  split; [exact Hnd|].
  apply (next_previous_round_trip (mkGroup [11; 12; 13] (Some 13)) Hnd).
Defined.

(** X11.  Starting from the image at index [i], [k] calls of
    [next_image] check the image at index [(i + k) mod size]: the images
    are visited in the order of the list, the first following the last,
    and after [size] calls the image checked at the start is checked
    again. *)
Theorem next_image_cycles (g : QActionGroup) (i k : nat) :
  NoDup (actions g) -> i < length (actions g) ->
  checkedAction g = Some (nth i (actions g) 0) ->
  Nat.iter k next_image g =
  setChecked (nth ((i + k) mod length (actions g)) (actions g) 0) g /\
  Nat.iter (length (actions g)) next_image g = g.
Proof.
  intros Hnd Hi Hc.
  assert (Hall : forall j,
             Nat.iter j next_image g =
             setChecked (nth ((i + j) mod length (actions g)) (actions g) 0) g).
  { induction j as [|j IH].
    - cbn [Nat.iter]. rewrite Nat.add_0_r, Nat.mod_small by assumption.
      destruct g as [l c]. cbn in *. rewrite Hc. reflexivity.
    - rewrite Nat.iter_succ, IH.
      rewrite (next_image_at _ ((i + j) mod length (actions g))).
      + cbn [setChecked actions].
        rewrite Nat.Div0.add_mod_idemp_l.
        replace (i + j + 1) with (i + S j) by lia. reflexivity.
      + assumption.
      + cbn [setChecked actions]. apply Nat.mod_upper_bound. lia.
      + reflexivity. }
  split; [apply Hall|].
  rewrite Hall.
  replace (i + length (actions g)) with (i + 1 * length (actions g)) by lia.
  rewrite Nat.Div0.mod_add, Nat.mod_small by assumption.
  destruct g as [l c]. cbn in *. rewrite Hc. reflexivity.
Qed.

Lemma next_image_cycles_witness :
  Nat.iter 2 next_image (mkGroup [11; 12; 13] (Some 12)) =
  mkGroup [11; 12; 13] (Some 11).
Proof.
  assert (Hnd : NoDup [11; 12; 13]).
  { repeat constructor; simpl; intros H;
      repeat (destruct H as [H|H]; [discriminate|]); exact H. }
  destruct (next_image_cycles (mkGroup [11; 12; 13] (Some 12)) 1 2 Hnd
                              ltac:(simpl; lia) eq_refl) as (H & _).
  exact H.
Defined.

(** X12.  When no image is checked, or when the checked action is not
    one of the group (in particular when the group is empty), neither
    function checks anything: the loop runs to its end without a match.
    With a single image, both leave it checked. *)
Theorem next_previous_nothing_to_do (g : QActionGroup) :
  ((forall a, checkedAction g = Some a -> ~ In a (actions g)) ->
   next_image g = g /\ previous_image g = g) /\
  (forall a, g = mkGroup [a] (Some a) ->
             next_image g = g /\ previous_image g = g).
Proof.
  split.
  - intros Hmiss. split; apply check_from_misses; assumption.
  - intros a ->. unfold next_image, previous_image. cbn.
    rewrite Nat.eqb_refl. split; reflexivity.
Qed.

End ViewerFacts.

(* ===================================================================== *)
(** * Properties of the options of the registration command *)
(* ===================================================================== *)

Module RegisterFacts.

Import String Register.

(** X13.  The flags that the [switch] sets agree with the name of the
    choice: a stage is run exactly when its name is one of the parts of
    the choice's name, every choice runs at least one stage, the choice
    taken when [-type] is not given is [affine_syn], and a value that is
    not the index of a choice runs nothing. *)
Theorem stages_match_names :
  (forall (t : nat) (name : string),
      nth_error transformation_choices t = Some name ->
      let st := stages_of (Z.of_nat t) in
      do_rigid st = names_stage "rigid" name /\
      do_affine st = names_stage "affine" name /\
      do_syn st = names_stage "syn" name /\
      do_rigid st || do_affine st || do_syn st = true) /\
  nth_error transformation_choices (Z.to_nat (registration_type None)) =
  Some "affine_syn"%string /\
  (forall t, t < 0 \/ 6 < t -> stages_of t = mkStages false false false).
Proof.
  split; [|split].
  - intros t name H.
    do 7 (destruct t as [|t]; [injection H as <-; vm_compute; repeat split|]).
    destruct t; discriminate.
  - reflexivity.
  - intros t Ht. destruct t as [|p|p]; [lia | | reflexivity].
    do 3 (destruct p as [p|p|]; try reflexivity; try lia).
Qed.

Section ChecksFacts.

Variables floats ints : Type.
Variable parse_floats : string -> option floats.
Variable parse_ints : string -> option ints.

Lemma bind_succeeds {A B : Type} (x : outcome A) (k : A -> outcome B) (P Q : Prop) :
  ((exists a, x = Done a) <-> P) ->
  (forall a, (exists b, k a = Done b) <-> Q) ->
  ((exists b, bind x k = Done b) <-> P /\ Q).
Proof.
  intros HP HQ. destruct x as [a|f]; cbn [bind].
  - rewrite (HQ a), <- HP. split; [intros H; split; [eauto | exact H] | tauto].
  - rewrite <- HP. split; [intros (b & H); discriminate |].
    intros ((a & H) & _). discriminate.
Qed.

Lemma bind_succeeds_last {A B : Type} (x : outcome A) (g : A -> B) (P : Prop) :
  ((exists a, x = Done a) <-> P) ->
  ((exists b, bind x (fun a => Done (g a)) = Done b) <-> P).
Proof.
  intros HP. rewrite <- HP. destruct x as [a|f]; cbn [bind].
  - split; eauto.
  - split; intros (b & H); discriminate.
Qed.

Lemma given_require_name (opt : option string) (stage : bool) (msg : string) :
  (exists v, given opt (fun name => bind (require stage msg) (fun _ => Done name))
             = Done v) <-> in_stage opt stage.
Proof.
  unfold in_stage. destruct opt as [a|]; cbn.
  - destruct stage; cbn.
    + split; eauto.
    + split; [intros (v & H); discriminate |].
      intros H. discriminate H. discriminate.
  - split; [intros _ H; contradiction | eauto].
Qed.

Lemma given_require (opt : option string) (stage : bool) (msg : string) :
  (exists v, given opt (fun _ => require stage msg) = Done v) <->
  in_stage opt stage.
Proof.
  unfold in_stage. destruct opt as [a|]; cbn.
  - destruct stage; cbn.
    + split; eauto.
    + split; [intros (v & H); discriminate |].
      intros H. discriminate H. discriminate.
  - split; [intros _ H; contradiction | eauto].
Qed.

Lemma given_require_parse {A : Type} (parser : string -> option A)
      (opt : option string) (stage : bool) (msg : string) :
  (exists v, given opt (fun text => bind (require stage msg)
                                         (fun _ => parse parser text))
             = Done v) <-> in_stage opt stage /\ parses parser opt.
Proof.
  unfold in_stage, parses, parse. destruct opt as [a|]; cbn.
  - destruct stage; cbn.
    + destruct (parser a) as [v|] eqn:E; cbn.
      * split; [|eauto]. intros _. split; [reflexivity|].
        intros text [= <-]. rewrite E. discriminate.
      * split; [intros (v & H); discriminate |].
        intros (_ & H). exfalso. apply (H a eq_refl). assumption.
    + split; [intros (v & H); discriminate |].
      intros (H & _). discriminate H. discriminate.
  - split; [|eauto]. intros _. split; [intros H; contradiction | discriminate].
Qed.

Lemma given_parse_require {A : Type} (parser : string -> option A)
      (opt : option string) (stage : bool) (msg : string) :
  (exists v, given opt (fun text =>
               bind (parse parser text)
                    (fun v => bind (require stage msg) (fun _ => Done v)))
             = Done v) <-> in_stage opt stage /\ parses parser opt.
Proof.
  unfold in_stage, parses, parse. destruct opt as [a|]; cbn.
  - destruct (parser a) as [v|] eqn:E; cbn.
    + destruct stage; cbn.
      * split; [|eauto]. intros _. split; [reflexivity|].
        intros text [= <-]. rewrite E. discriminate.
      * split; [intros (w & H); discriminate |].
        intros (H & _). discriminate H. discriminate.
    + split; [intros (v & H); discriminate |].
      intros (_ & H). exfalso. apply (H a eq_refl). assumption.
  - split; [|eauto]. intros _. split; [intros H; contradiction | discriminate].
Qed.

Lemma given_refused (opt : option string) (f : failure) :
  (exists v, given opt (fun _ => @Failed unit f) = Done v) <-> opt = None.
Proof.
  destruct opt as [a|]; cbn.
  - split; [intros (v & H); discriminate | discriminate].
  - split; eauto.
Qed.

Ltac step :=
  first [ apply given_require_name | apply given_require
        | apply given_require_parse | apply given_parse_require
        | apply given_refused ].

(** X14.  [run] gets through its checks of the options exactly when
    every option that belongs to a stage is given only if that stage is
    requested, every list that is given parses, and none of the three
    initialisation options is given: these three are refused whenever
    they appear. *)
Theorem check_options_passes (cl : CommandLine) :
  (exists plan, check_options floats ints parse_floats parse_ints cl = Done plan)
  <-> consistent floats ints parse_floats parse_ints cl.
Proof.
  unfold check_options, consistent. cbv zeta.
  do 15 (apply bind_succeeds; [step | intros ?]).
  apply bind_succeeds_last. step.
Qed.

Lemma bind_done {A B : Type} (x : outcome A) (k : A -> outcome B) (b : B) :
  bind x k = Done b -> exists a, x = Done a /\ k a = Done b.
Proof. destruct x as [a|f]; cbn; [eauto | discriminate]. Qed.

Lemma given_name_value (opt : option string) (stage : bool) (msg : string)
      (v : option string) :
  given opt (fun name => bind (require stage msg) (fun _ => Done name)) = Done v ->
  v = opt.
Proof.
  destruct opt as [a|]; cbn; [|congruence].
  destruct stage; cbn; [congruence | discriminate].
Qed.

(** X15.  When the checks pass, the stages handed over are those of the
    registration type, and the names of the output files are those given
    on the command line: the transformation of a stage is only written
    for a stage that is run. *)
Theorem check_options_plan (cl : CommandLine) (plan : Plan floats ints) :
  check_options floats ints parse_floats parse_ints cl = Done plan ->
  stages _ _ plan = stages_of (registration_type (type cl)) /\
  rigid_filename _ _ plan = rigid_out cl /\
  affine_filename _ _ plan = affine_out cl /\
  warp_filename _ _ plan = warp_out cl /\
  (rigid_filename _ _ plan <> None -> do_rigid (stages _ _ plan) = true) /\
  (affine_filename _ _ plan <> None -> do_affine (stages _ _ plan) = true) /\
  (warp_filename _ _ plan <> None -> do_syn (stages _ _ plan) = true).
Proof.
  intros H.
  unfold check_options in H. cbv zeta in H.
  apply bind_done in H. destruct H as (v1 & H1 & H).
  apply bind_done in H. destruct H as (v2 & H2 & H).
  apply bind_done in H. destruct H as (v3 & H3 & H).
  do 13 (apply bind_done in H; destruct H as (? & _ & H)).
  injection H as <-. cbn [stages rigid_filename affine_filename warp_filename].
  pose proof (proj1 (given_require_name _ _ _) (ex_intro _ v1 H1)) as C1.
  pose proof (proj1 (given_require_name _ _ _) (ex_intro _ v2 H2)) as C2.
  pose proof (proj1 (given_require_name _ _ _) (ex_intro _ v3 H3)) as C3.
  apply given_name_value in H1, H2, H3. subst v1 v2 v3.
  repeat split; assumption.
Qed.

End ChecksFacts.

Lemma check_options_plan_witness :
  exists plan,
    check_options unit unit (fun _ => Some tt) (fun _ => Some tt) rigid_with_output
    = Done plan /\
    do_rigid (stages _ _ plan) = true /\
    rigid_filename _ _ plan = Some "rigid.txt"%string.
Proof.
  eexists. split; [reflexivity|].
  destruct (check_options_plan unit unit (fun _ => Some tt) (fun _ => Some tt)
                               rigid_with_output _ eq_refl)
    as (_ & H2 & _ & _ & H5 & _).
  split; [apply H5; discriminate | exact H2].
Defined.

(** *** The detection of a spherical harmonic series *)

Lemma agree_on_spec (cnt : nat) :
  forall from,
    agree_on from cnt = true ->
    forall size3,
      from <= size3 < from + Z.of_nat cnt ->
      SH_series size3 true = square_of_3_mod_4 size3.
Proof.
  induction cnt; intros from H size3 Hs; [lia|].
  cbn [agree_on] in H. apply andb_true_iff in H. destruct H as (H0 & H).
  destruct (Z.eq_dec size3 from) as [->|Hne].
  - apply Bool.eqb_prop. assumption.
  - apply (IHcnt (from + 1)); [assumption | lia].
Qed.

Lemma agree_up_to_4096 : agree_on 0 (Z.to_nat 4097) = true.
Proof. vm_compute. reflexivity. Qed.

(** In exact arithmetic, the sizes that pass are the numbers of
    coefficients of the even orders above 0. *)
Lemma square_of_3_mod_4_spec (size3 : Z) :
  square_of_3_mod_4 size3 = true <->
  exists l, 0 < l /\ Z.even l = true /\ 2 * size3 = (l + 1) * (l + 2).
Proof.
  unfold square_of_3_mod_4. cbv zeta.
  rewrite !andb_true_iff, !Z.eqb_eq, Z.ltb_lt. split.
  - intros ((Hsq & Hmod) & Hgt).
    set (k := Z.sqrt (1 + 8 * size3)) in *.
    assert (Hk0 : 0 <= k) by apply Z.sqrt_nonneg.
    assert (Hk : k = 4 * (k / 4) + 3).
    { pose proof (Z.div_mod k 4 ltac:(lia)) as Hd. rewrite Hmod in Hd. exact Hd. }
    exists (2 * (k / 4)).
    assert (0 <= k / 4) by (apply Z.div_pos; lia).
    split; [|split].
    + destruct (Z.eq_dec (k / 4) 0) as [E|E]; [|lia].
      rewrite E in Hk. rewrite Hk in Hsq. lia.
    + rewrite Z.even_mul. reflexivity.
    + rewrite Hk in Hsq. nia.
  - intros (l & Hl & Hev & Hs).
    apply Z.even_spec in Hev. destruct Hev as [j ->].
    assert (H8 : 1 + 8 * size3 = (4 * j + 3) * (4 * j + 3)) by nia.
    rewrite H8, Z.sqrt_square by lia.
    repeat split.
    + replace (4 * j + 3) with (3 + j * 4) by lia.
      rewrite Z.mod_add by lia. reflexivity.
    + nia.
Qed.

Lemma SH_series_reorientation (size3 : Z) (do_reorientation : bool) :
  SH_series size3 do_reorientation =
  do_reorientation && SH_series size3 true.
Proof.
  unfold SH_series. cbv zeta. destruct do_reorientation.
  - reflexivity.
  - rewrite andb_false_r. reflexivity.
Qed.

(** X16.  For an image of up to 4096 volumes, the test of [run] on the
    [float] value [(sqrt (1 + 8 n) - 3) / 4] detects a spherical harmonic
    series exactly when reorientation is not switched off and the number
    of volumes is the number of coefficients [(l+1)(l+2)/2] of an even
    order [l > 0], that is 6, 15, 28, ...; a single volume is never taken
    for one. *)
Theorem SH_series_detects_even_orders (size3 : Z) (do_reorientation : bool) :
  0 <= size3 <= 4096 ->
  SH_series size3 do_reorientation = true <->
  do_reorientation = true /\
  exists l, 0 < l /\ Z.even l = true /\ 2 * size3 = (l + 1) * (l + 2).
Proof.
  intros Hs.
  rewrite SH_series_reorientation, andb_true_iff.
  rewrite (agree_on_spec _ 0 agree_up_to_4096 size3) by lia.
  rewrite square_of_3_mod_4_spec. reflexivity.
Qed.

Lemma SH_series_detects_even_orders_witness :
  0 <= 45 <= 4096 /\ SH_series 45 true = true /\ SH_series 46 true = false.
Proof.
  split; [lia|]. split.
  - apply (SH_series_detects_even_orders 45 true ltac:(lia)).
    split; [reflexivity|]. exists 8. repeat split.
  - reflexivity.
Defined.

End RegisterFacts.
